(** * stashr: the encrypted backup container (internal/crypto/encryption.go)

    A shallow embedding of the package [crypto] of stashr: the container
    header, [Encrypt] / [Decrypt], the file wrappers and the key-file
    helpers.  The functions run in a small state-and-error monad over a
    [world] that holds what the Go code reaches outside of its arguments:
    the bytes [rand.Reader] will deliver, the file system, and the backing
    arrays of the slices that hold key material (so that [clearBytes] has
    something to overwrite).

    SHA-256 and AES-GCM come from Go's standard library; they are taken as
    parameters of [Section Crypto], together with the facts about them the
    proofs use.  [pbkdf2.Key] and HMAC are written out over the hash.

    A second part covers what surrounds the container: the data path of
    [backupManager] and [runRestore] and the header preview in package
    [cmd], the retention policy and [GetBackupsByManager] in package
    [storage], [FormatBytes] and the gzip helpers in package [utils].
    There gzip and [fmt.Sprintf] are parameters, and a call that can
    panic returns a [go] value. *)

From Stdlib Require Import NArith.
From Stdlib.Strings Require Import Byte String.
From stdpp Require Import base option list gmap strings.
From Stdlib Require Import ZArith.
From Stdlib.Strings Require Import Ascii.
From stdpp Require Import sorting.
From Equations Require Import Equations.

Local Open Scope string_scope.
Local Open Scope list_scope.
Local Open Scope nat_scope.

(** ** Bytes *)

#[global] Instance byte_eq_decision : EqDecision byte := Byte.byte_eq_dec.

(** Go's conversion [byte(x)] of an unsigned integer: the low eight bits. *)
Definition byte_of_N (n : N) : byte :=
  default x00 (Byte.of_N (n mod 256)%N).

(** [a ^ b] on bytes. *)
Definition byte_xor (a b : byte) : byte :=
  byte_of_N (N.lxor (Byte.to_N a) (Byte.to_N b)).

(** [[]byte(s)]: a Go string is its bytes. *)
Definition bytes_of_string (s : string) : list byte := list_byte_of_string s.

(** The slice expression [b[lo:hi]].  Go panics when the bounds are out of
    range; every use below is guarded by a length check. *)
Definition slice (b : list byte) (lo hi : nat) : list byte :=
  take (hi - lo) (drop lo b).

(** The builtin [copy(dst, src)]: the first [min (len dst) (len src)] bytes
    of [dst] are replaced, the result is the new content of [dst]. *)
Definition copy (dst src : list byte) : list byte :=
  take (length dst) src ++ drop (length src) dst.

(** [binary.BigEndian.Uint16(b)] = [uint16(b[1]) | uint16(b[0])<<8]. *)
Definition BigEndian_Uint16 (b : list byte) : N :=
  match b with
  | b0 :: b1 :: _ => N.lor (Byte.to_N b1) (N.shiftl (Byte.to_N b0) 8)
  | _ => 0%N
  end.

(** ** Errors

    The source builds its errors with [fmt.Errorf]; each site is a
    constructor here.  [wrapError msg err] is [fmt.Errorf(msg, err)] with
    a [%w] verb: a new error value that carries [err] as its cause. *)

Inductive errno : Type := ENOENT | EACCES | EISDIR | EROFS.

Inductive error : Type :=
  | ErrTruncated                           (* "ciphertext too short" *)
  | ErrBadMagic                            (* "invalid file format: bad magic bytes" *)
  | ErrUnsupportedVersion (version : N)    (* "unsupported file version: %d" *)
  | ErrUnsupportedAlgorithm (algorithm : N)(* "unsupported algorithm: %d" *)
  | KeySizeError (n : nat)                 (* aes.KeySizeError *)
  | errNotAES                              (* cipher.NewGCM on a block size other than 16 *)
  | errOpen                                (* "cipher: message authentication failed" *)
  | EOF                                    (* io.EOF *)
  | ErrUnexpectedEOF                       (* io.ErrUnexpectedEOF *)
  | PathError (op path : string) (e : errno)   (* *fs.PathError *)
  | wrapError (msg : string) (err : error).

(** The error [Decrypt] returns when [gcm.Open] fails: the specification's
    [ErrDecryptionFailed]. *)
Definition ErrDecryptionFailed : error :=
  wrapError "failed to decrypt: %w (incorrect password or corrupted data)" errOpen.


Fixpoint causes (e : error) : list error :=
  e :: match e with wrapError _ err => causes err | _ => [] end.

(** [os.IsNotExist] looks at the error itself, which [os.Stat] returns
    unwrapped. *)
Definition IsNotExist (e : option error) : bool :=
  match e with Some (PathError _ _ ENOENT) => true | _ => false end.

Inductive result (A : Type) : Type :=
  | Ok (a : A)
  | Err (e : error).
Arguments Ok {A} a.
Arguments Err {A} e.

(** ** The world *)

Inductive node : Type :=
  | File (data : list byte) (perm : N)
  | Dir
  | NoAccess.   (* a directory on the way to the path denies search *)

Record world : Type := World {
  rand : list byte;            (* what rand.Reader still has to deliver *)
  files : gmap string node;
  readonly : bool;             (* the file system is mounted read-only *)
  mem : list (list byte)       (* backing arrays of the slices holding secrets *)
}.

Definition set_rand (r : list byte) (w : world) : world :=
  World r (files w) (readonly w) (mem w).
Definition set_files (f : gmap string node) (w : world) : world :=
  World (rand w) f (readonly w) (mem w).
Definition set_mem (m : list (list byte)) (w : world) : world :=
  World (rand w) (files w) (readonly w) m.

(** ** The monad: a Go function returning [(value, error)] in a world *)

Definition M (A : Type) : Type := world → result A * world.

#[global] Instance M_ret : MRet M := λ A a w, (Ok a, w).
#[global] Instance M_bind : MBind M := λ A B f m w,
  match m w with
  | (Ok a, w') => f a w'
  | (Err e, w') => (Err e, w')
  end.

(** [return nil, err]. *)
Definition fail {A} (e : error) : M A := λ w, (Err e, w).

(** [if err != nil { return nil, fmt.Errorf(msg, err) }] around a call. *)
Definition wrap {A} (msg : string) (m : M A) : M A := λ w,
  match m w with
  | (Ok a, w') => (Ok a, w')
  | (Err e, w') => (Err (wrapError msg e), w')
  end.

(** [defer cleanup()] placed before [body]: [cleanup] runs when [body]
    returns, whichever way it returns. *)
Definition defer {A} (cleanup : M unit) (body : M A) : M A := λ w,
  match body w with
  | (r, w') => (r, snd (cleanup w'))
  end.

(** *** rand.Reader *)

(** [io.ReadFull(rand.Reader, buf)] with [len(buf) = n]. *)
Definition rand_ReadFull (n : nat) : M (list byte) := λ w,
  if decide (n ≤ length (rand w)) then
    (Ok (take n (rand w)), set_rand (drop n (rand w)) w)
  else
    (Err (if decide (rand w = []) then EOF else ErrUnexpectedEOF), set_rand [] w).

(** *** Secret slices *)

(** A slice over a fresh backing array with content [bs]; the result is the
    array's address in [mem]. *)
Definition make_secret (bs : list byte) : M nat := λ w,
  (Ok (length (mem w)), set_mem (mem w ++ [bs]) w).

(** The bytes a secret slice holds. *)
Definition load (a : nat) : M (list byte) := λ w,
  (Ok (default [] (mem w !! a)), w).

(** [for i := range b { b[i] = 0 }] *)
Definition zero_fill (b : list byte) : list byte :=
  foldl (λ acc i, <[i := x00]> acc) b (seq 0 (length b)).

(** [clearBytes(b)] on a secret slice. *)
Definition clearBytes (a : nat) : M unit := λ w,
  (Ok tt, set_mem (alter zero_fill a (mem w)) w).

(** *** Files *)

Definition owner_can (bit : N) (perm : N) : bool := N.testbit perm bit.

(** [os.Stat(path)]; only the error is used. *)
Definition os_Stat (path : string) : world → option error := λ w,
  match files w !! path with
  | None => Some (PathError "stat" path ENOENT)
  | Some NoAccess => Some (PathError "stat" path EACCES)
  | Some _ => None
  end.

(** [os.ReadFile(path)]. *)
Definition os_ReadFile (path : string) : M (list byte) := λ w,
  match files w !! path with
  | None => (Err (PathError "open" path ENOENT), w)
  | Some NoAccess => (Err (PathError "open" path EACCES), w)
  | Some Dir => (Err (PathError "read" path EISDIR), w)
  | Some (File data perm) =>
      if owner_can 8 perm then (Ok data, w)
      else (Err (PathError "open" path EACCES), w)
  end.

(** [os.WriteFile(path, data, perm)]: create with [perm], or truncate an
    existing file and keep its mode. *)
Definition os_WriteFile (path : string) (data : list byte) (perm : N) : M unit := λ w,
  if readonly w then (Err (PathError "open" path EROFS), w)
  else match files w !! path with
  | None => (Ok tt, set_files (<[path := File data perm]> (files w)) w)
  | Some NoAccess => (Err (PathError "open" path EACCES), w)
  | Some Dir => (Err (PathError "open" path EISDIR), w)
  | Some (File _ perm') =>
      if owner_can 7 perm' then
        (Ok tt, set_files (<[path := File data perm']> (files w)) w)
      else (Err (PathError "open" path EACCES), w)
  end.

(** [io.ReadFull(rand.Reader, b)] into a secret slice [b]; on a short read
    the bytes that did arrive are in the buffer. *)
Definition rand_ReadFull_secret (a : nat) : M unit := λ w,
  let buf := default [] (mem w !! a) in
  if decide (length buf ≤ length (rand w)) then
    (Ok tt, set_rand (drop (length buf) (rand w))
              (set_mem (<[a := take (length buf) (rand w)]> (mem w)) w))
  else
    (Err (if decide (rand w = []) then EOF else ErrUnexpectedEOF),
     set_rand [] (set_mem (<[a := copy buf (rand w)]> (mem w)) w)).

(** ** Constants of the format *)

Definition fileMagic : string := "PWBK".
Definition fileVersion : N := 1.
Definition algorithmAES256GCM : N := 1.
Definition saltLength : nat := 32.
Definition nonceLength : nat := 12.
Definition pbkdf2Iterations : N := 100000.
Definition keyLength : nat := 32.
(** The mode [0600] the wrappers pass to [os.WriteFile]. *)
Definition perm0600 : N := 0x180.

Record EncryptedFileHeader : Type := {
  Magic : list byte;      (* [4]byte *)
  Version : N;            (* uint16 *)
  Algorithm : N;          (* uint16 *)
  Reserved : list byte;   (* [8]byte *)
  Salt : list byte;       (* [32]byte *)
  Nonce : list byte       (* [12]byte *)
}.

(** ** The cipher and the hash, and the code on top of them *)

Section Crypto.

(** [sha256.Sum256] seen as a function of the bytes written; block size
    64, digest size 32. *)
Variable sha256_Sum : list byte → list byte.
Definition sha256_BlockSize : nat := 64.
Definition sha256_Size : nat := 32.

(** AES-GCM with the standard nonce and tag sizes, no additional data:
    [aesgcm_Seal key nonce plaintext] is [gcm.Seal(nil, nonce, plaintext, nil)]
    for the cipher built from [key], and [aesgcm_Open key nonce ciphertext]
    is [gcm.Open(nil, nonce, ciphertext, nil)], [None] standing for
    [errOpen].  (Buffers past GCM's 64 GiB message limit are not modelled.) *)
Variable aesgcm_Seal : list byte → list byte → list byte → list byte.
Variable aesgcm_Open : list byte → list byte → list byte → option (list byte).
Definition gcmTagSize : nat := 16.

(** *** crypto/hmac and golang.org/x/crypto/pbkdf2 *)

(** [hmac.New(sha256.New, key)] followed by [Write(msg)] and [Sum(nil)]:
    a key longer than the block is hashed, then copied into zeroed pads. *)
Definition hmac_Sum (key msg : list byte) : list byte :=
  let key := if decide (sha256_BlockSize < length key) then sha256_Sum key else key in
  let ipad := map (byte_xor x36) (copy (replicate sha256_BlockSize x00) key) in
  let opad := map (byte_xor x5c) (copy (replicate sha256_BlockSize x00) key) in
  sha256_Sum (opad ++ sha256_Sum (ipad ++ msg)).

(** One block [T = U_1 ^ U_2 ^ ... ^ U_iter] of [pbkdf2.Key]. *)
Definition pbkdf2_block (password salt : list byte) (iter : N) (block : nat) : list byte :=
  let b := N.of_nat block in
  let U1 := hmac_Sum password
              (salt ++ [byte_of_N (N.shiftr b 24); byte_of_N (N.shiftr b 16);
                        byte_of_N (N.shiftr b 8); byte_of_N b]) in
  fst (N.iter (iter - 1)
         (λ TU, let U := hmac_Sum password (snd TU) in
                (zip_with byte_xor (fst TU) U, U))
         (U1, U1)).

(** [pbkdf2.Key(password, salt, iter, keyLen, sha256.New)]. *)
Definition pbkdf2_Key (password salt : list byte) (iter : N) (keyLen : nat) : list byte :=
  let hashLen := sha256_Size in
  let numBlocks := (keyLen + hashLen - 1) / hashLen in
  let dk := foldl (λ dk block, dk ++ pbkdf2_block password salt iter block)
              [] (seq 1 numBlocks) in
  take keyLen dk.

(** *** crypto/aes and crypto/cipher *)

Record Block : Type := { blockKey : list byte; blockSize : nat }.
Record AEAD : Type := { gcmKey : list byte }.

(** [aes.NewCipher(key)] on a secret slice. *)
Definition aes_NewCipher (key : nat) : M Block :=
  k ← load key;
  if decide (length k = 16 ∨ length k = 24 ∨ length k = 32)
  then mret {| blockKey := k; blockSize := 16 |}
  else fail (KeySizeError (length k)).

(** [cipher.NewGCM(block)]. *)
Definition cipher_NewGCM (block : Block) : M AEAD :=
  if decide (blockSize block = 16)
  then mret {| gcmKey := blockKey block |}
  else fail errNotAES.

Definition gcm_Seal (gcm : AEAD) (nonce plaintext : list byte) : list byte :=
  aesgcm_Seal (gcmKey gcm) nonce plaintext.

Definition gcm_Open (gcm : AEAD) (nonce ciphertext : list byte) : M (list byte) :=
  match aesgcm_Open (gcmKey gcm) nonce ciphertext with
  | Some plaintext => mret plaintext
  | None => fail errOpen
  end.

(** *** encryption.go *)

Definition GenerateKey (password : string) (salt : list byte) : list byte :=
  pbkdf2_Key (bytes_of_string password) salt pbkdf2Iterations keyLength.

Definition GenerateSalt : M (list byte) :=
  wrap "failed to generate salt: %w" (rand_ReadFull saltLength).

Definition Encrypt (plaintext : list byte) (password : string) : M (list byte) :=
  salt ← GenerateSalt;
  key ← make_secret (GenerateKey password salt);
  block ← wrap "failed to create cipher: %w" (aes_NewCipher key);
  gcm ← wrap "failed to create GCM: %w" (cipher_NewGCM block);
  nonce ← wrap "failed to generate nonce: %w" (rand_ReadFull nonceLength);
  let ciphertext := gcm_Seal gcm nonce plaintext in
  let header :=
    {| Magic := copy (replicate 4 x00) (bytes_of_string fileMagic);
       Version := fileVersion;
       Algorithm := algorithmAES256GCM;
       Reserved := replicate 8 x00;
       Salt := copy (replicate 32 x00) salt;
       Nonce := copy (replicate 12 x00) nonce |} in
  let result := [] in
  let result := result ++ Magic header in
  let result := result ++ [byte_of_N (N.shiftr (Version header) 8);
                           byte_of_N (Version header)] in
  let result := result ++ [byte_of_N (N.shiftr (Algorithm header) 8);
                           byte_of_N (Algorithm header)] in
  let result := result ++ Reserved header in
  let result := result ++ Salt header in
  let result := result ++ Nonce header in
  let result := result ++ ciphertext in
  _ ← clearBytes key;
  mret result.

Definition Decrypt (ciphertext : list byte) (password : string) : M (list byte) :=
  let minLength := 4 + 2 + 2 + 8 + 32 + 12 + 16 in
  if decide (length ciphertext < minLength) then fail ErrTruncated else
  let offset := 0 in
  let magic := slice ciphertext offset (offset + 4) in
  let offset := offset + 4 in
  if decide (magic ≠ bytes_of_string fileMagic) then fail ErrBadMagic else
  let version := BigEndian_Uint16 (slice ciphertext offset (offset + 2)) in
  let offset := offset + 2 in
  if decide (version ≠ fileVersion) then fail (ErrUnsupportedVersion version) else
  let algorithm := BigEndian_Uint16 (slice ciphertext offset (offset + 2)) in
  let offset := offset + 2 in
  if decide (algorithm ≠ algorithmAES256GCM) then fail (ErrUnsupportedAlgorithm algorithm) else
  let offset := offset + 8 in
  let salt := slice ciphertext offset (offset + saltLength) in
  let offset := offset + saltLength in
  let nonce := slice ciphertext offset (offset + nonceLength) in
  let offset := offset + nonceLength in
  let encryptedData := drop offset ciphertext in
  key ← make_secret (GenerateKey password salt);
  defer (clearBytes key)
    (block ← wrap "failed to create cipher: %w" (aes_NewCipher key);
     gcm ← wrap "failed to create GCM: %w" (cipher_NewGCM block);
     wrap "failed to decrypt: %w (incorrect password or corrupted data)"
       (gcm_Open gcm nonce encryptedData)).

Definition EncryptFile (inputPath outputPath password : string) : M unit :=
  plaintext ← wrap "failed to read input file: %w" (os_ReadFile inputPath);
  ciphertext ← Encrypt plaintext password;
  wrap "failed to write output file: %w" (os_WriteFile outputPath ciphertext perm0600).

Definition DecryptFile (inputPath outputPath password : string) : M unit :=
  ciphertext ← wrap "failed to read input file: %w" (os_ReadFile inputPath);
  plaintext ← Decrypt ciphertext password;
  wrap "failed to write output file: %w" (os_WriteFile outputPath plaintext perm0600).

Definition GetOrCreateEncryptionKey (keyPath password : string) : M unit := λ w,
  if IsNotExist (os_Stat keyPath w) then
    (key ← make_secret (replicate 32 x00);
     _ ← wrap "failed to generate key: %w" (rand_ReadFull_secret key);
     k ← load key;
     encryptedKey ← wrap "failed to encrypt key: %w" (Encrypt k password);
     _ ← wrap "failed to write key file: %w" (os_WriteFile keyPath encryptedKey perm0600);
     clearBytes key) w
  else (Ok tt, w).

Definition LoadEncryptionKey (keyPath password : string) : M (list byte) :=
  encryptedKey ← wrap "failed to read key file: %w" (os_ReadFile keyPath);
  wrap "failed to decrypt key: %w" (Decrypt encryptedKey password).

End Crypto.

(** ** Vocabulary for the statements *)

(** The sixteen bytes every container starts with: magic, version 1,
    algorithm 1 (both big-endian), eight reserved zero bytes. *)
Definition header_prefix : list byte :=
  [x50; x57; x42; x4b; x00; x01; x00; x01] ++ replicate 8 x00.

(** What [Encrypt] assembles from the salt, the nonce and the sealed data. *)
Definition container (salt nonce sealed : list byte) : list byte :=
  header_prefix ++ salt ++ nonce ++ sealed.

(** The world [Decrypt] leaves once it has derived a key: one more secret
    buffer, zeroed. *)
Definition after_Decrypt (w : world) : world :=
  World (rand w) (files w) (readonly w) (mem w ++ [replicate 32 x00]).

(** The one-character string that holds a NUL byte. *)
Definition NUL : string := String Ascii.zero EmptyString.

(** [b ^ (1 << bit)] *)
Definition flip_bit (bit : nat) (b : byte) : byte :=
  byte_xor b (byte_of_N (N.shiftl 1 (N.of_nat bit))).

(** The buffer [c] after [c[i] ^= 1 << bit]. *)
Definition flip (c : list byte) (i bit : nat) : list byte :=
  alter (flip_bit bit) i c.


(** ** A stand-in for the hash and the cipher

    Small executable functions with the interface of SHA-256 and AES-GCM,
    used to run the code on concrete inputs.  They have the sizes of the
    real ones and nothing of their strength. *)

Module Standin.

Definition marker : list byte := replicate 32 xff.

(** A 32-byte digest made so that [pbkdf2_Key] over it has a closed form:
    the inner hash of HMAC's first call (a 36-byte message after the
    64-byte pad) is [marker], the outer hash of a marked digest is the
    head of the pad, and every other input hashes to zeros, which the
    100000 rounds of [pbkdf2_block] then leave alone. *)
Definition sum (m : list byte) : list byte :=
  if decide (length m = 100) then marker
  else if decide (drop 64 m = marker) then take 32 m
  else replicate 32 x00.

(** A 16-bit rolling checksum spread over 16 bytes. *)
Definition checksum (m : list byte) : list byte :=
  let h := foldl (λ h b, (h * 31 + Byte.to_N b + 7) mod 65521)%N 1%N m in
  map (λ i, byte_of_N ((h + N.of_nat i) * (2 * N.of_nat i + 1) / 3)%N) (seq 0 16).

Definition tag (key nonce body : list byte) : list byte :=
  checksum (key ++ nonce ++ body).

Definition seal (key nonce plaintext : list byte) : list byte :=
  plaintext ++ tag key nonce plaintext.

Definition open (key nonce ciphertext : list byte) : option (list byte) :=
  if decide (length ciphertext < 16) then None else
  let body := take (length ciphertext - 16) ciphertext in
  if decide (drop (length ciphertext - 16) ciphertext = tag key nonce body)
  then Some body else None.

(** HMAC's outer pad over [sum]. *)
Definition opad (key : list byte) : list byte :=
  map (byte_xor x5c)
    (copy (replicate 64 x00) (if decide (64 < length key) then sum key else key)).

(** What [pbkdf2_Key] over [sum] comes to for a password of at most 64
    bytes: the head of HMAC's outer pad. *)
Definition derive (password : list byte) : list byte :=
  take 32 (map (byte_xor x5c) (password ++ replicate (64 - length password) x00)).

(** The scenario of the specification: ["hello, world!"] sealed with
    ["correct-horse"], here with a fixed salt and nonce. *)
Definition entropy : list byte := replicate 32 x01 ++ replicate 12 x02.
Definition w0 : world := World entropy ∅ false [].
Definition hello : list byte := bytes_of_string "hello, world!".
Definition sealed_hello : list byte :=
  Eval vm_compute in
    container (replicate 32 x01) (replicate 12 x02)
      (seal (derive (bytes_of_string "correct-horse")) (replicate 12 x02) hello).

(** A world whose key file holds that container, and one where the path of
    the key file cannot be looked up. *)
Definition keyPath : string := "/home/user/.stashr/key.enc".
Definition w_keyfile : world :=
  World [] (<[keyPath := File sealed_hello perm0600]> ∅) false [].
Definition w_noaccess : world :=
  World entropy (<[keyPath := NoAccess]> ∅) false [].

(** The world after [Encrypt] has run in [w0], and a world whose
    [rand.Reader] fails after forty bytes. *)
Definition w1 : world := World [] ∅ false [replicate 32 x00].
Definition w_short : world := World (replicate 40 x01) ∅ false [].

(** Buffers that fail one header check each. *)
Definition too_short : list byte := bytes_of_string "PWBK".
Definition bad_magic : list byte := replicate 76 x00.
Definition bad_version : list byte :=
  bytes_of_string "PWBK" ++ [x00; x02; x00; x01] ++ replicate 68 x00.
Definition bad_algorithm : list byte :=
  bytes_of_string "PWBK" ++ [x00; x01; x00; x07] ++ replicate 68 x00.

End Standin.

(** * Around the container: storage, utils, cmd

    The callers of [Encrypt] and [Decrypt] in package [cmd], and the
    helpers of the packages [storage] and [utils] they use. *)

(** ** Panics and loops *)

(** The run-time panics of an index expression and of a slice expression. *)
Inductive panic : Type :=
  | IndexOutOfRange (i : Z) (len : nat)         (* index out of range [i] with length len *)
  | SliceBoundsOutOfRange (hi : Z) (len : nat). (* slice bounds out of range [:hi] *)

(** A call returns a value or panics. *)
Inductive go (A : Type) : Type :=
  | Returns (a : A)
  | Panics (p : panic).
Arguments Returns {A} a.
Arguments Panics {A} p.

(** [l[i]] for an [int] index. *)
Definition at_index {A} (l : list A) (i : Z) : go A :=
  if decide (0 ≤ i)%Z then
    match l !! Z.to_nat i with
    | Some x => Returns x
    | None => Panics (IndexOutOfRange i (length l))
    end
  else Panics (IndexOutOfRange i (length l)).

(** [for x := lo; x < hi; x++ { body }], the body updating [a] in place. *)
Definition for_range {A} (lo hi : nat) (body : nat → A → go A) (a : A) : go A :=
  foldl (λ acc x, match acc with Returns a => body x a | Panics p => Panics p end)
    (Returns a) (seq lo (hi - lo)).

(** [s[:hi]] on a string. *)
Definition slice_to (s : string) (hi : Z) : go string :=
  if decide (0 ≤ hi ≤ Z.of_nat (String.length s))%Z
  then Returns (substring 0 (Z.to_nat hi) s)
  else Panics (SliceBoundsOutOfRange hi (String.length s)).

(** [v, err := f(); if err != nil { v = fallback }]: the error is logged
    and dropped. *)
Definition or_else {A} (m : M A) (fallback : A) : M A := λ w,
  match m w with
  | (Ok a, w') => (Ok a, w')
  | (Err _, w') => (Ok fallback, w')
  end.

(** ** Package storage *)

Module storage.

Record BackupFile : Type := {
  Name : string;
  Size : Z;             (* int64 *)
  ModifiedTime : Z;     (* time.Time: the instant, in nanoseconds *)
  Location : string;
  StorageType : string
}.

(** [t.Before(u)] *)
Definition Before (t u : Z) : bool := (t <? u)%Z.

(** The body of the inner loop of the sort:
    [if backups[i].ModifiedTime.Before(backups[j].ModifiedTime) {
       backups[i], backups[j] = backups[j], backups[i] }]. *)
Definition swap_if_Before (i j : nat) (backups : list BackupFile) : go (list BackupFile) :=
  match backups !! i, backups !! j with
  | Some bi, Some bj =>
      Returns (if Before (ModifiedTime bi) (ModifiedTime bj)
               then <[j := bi]> (<[i := bj]> backups) else backups)
  | None, _ => Panics (IndexOutOfRange (Z.of_nat i) (length backups))
  | _, None => Panics (IndexOutOfRange (Z.of_nat j) (length backups))
  end.

(** The delete loop, [for i := keepLast; i < len(backups); i++], with [n]
    iterations to go. *)
Fixpoint delete_loop (deleteFunc : string → M unit) (backups : list BackupFile)
    (n : nat) (i : Z) (w : world) : go (result unit) * world :=
  match n with
  | 0 => (Returns (Ok tt), w)
  | S n =>
      match at_index backups i with
      | Panics p => (Panics p, w)
      | Returns b =>
          match deleteFunc (Name b) w with
          | (Err err, w') =>
              (Returns (Err (wrapError ("failed to delete " +:+ Name b +:+ ": %w") err)), w')
          | (Ok _, w') => delete_loop deleteFunc backups n (i + 1)%Z w'
          end
      end
  end.

(** [ApplyRetentionPolicy(backups, keepLast, deleteFunc)].  The slice is
    sorted in place, so the caller sees the new order: the result carries
    the content of [backups] at the return.  ([len(backups)-1] is [-1] for
    an empty slice, and the outer loop does not run; the same holds for
    [0 - 1] on [nat].) *)
Definition ApplyRetentionPolicy (backups : list BackupFile) (keepLast : Z)
    (deleteFunc : string → M unit) (w : world)
  : go (result unit * list BackupFile) * world :=
  if decide (Z.of_nat (length backups) ≤ keepLast)%Z then (Returns (Ok tt, backups), w)
  else
    match for_range 0 (length backups - 1)
            (λ i backups, for_range (i + 1) (length backups) (swap_if_Before i) backups)
            backups with
    | Panics p => (Panics p, w)
    | Returns backups =>
        match delete_loop deleteFunc backups
                (Z.to_nat (Z.of_nat (length backups) - keepLast)) keepLast w with
        | (Returns r, w') => (Returns (r, backups), w')
        | (Panics p, w') => (Panics p, w')
        end
    end.

(** [(l *Local) GetBackupsByManager(manager)] and its twin on [*USB];
    [List] is the receiver's [List()]. *)
Definition GetBackupsByManager (List : M (list BackupFile)) (manager : string)
  : M (list BackupFile) :=
  backups ← List;
  let filtered :=
    foldl (λ filtered backup,
             if decide (String.length manager < String.length (Name backup)) then
               if decide (substring 0 (String.length manager) (Name backup)
                          = "backup_" +:+ manager)
               then filtered ++ [backup] else filtered
             else filtered)
      [] backups in
  mret filtered.

(** *** The sort, as a function on lists *)

(** One pass of the inner loop with [x] at position [i] and [l] after it:
    the entry left at [i], and what follows. *)
Fixpoint pass (x : BackupFile) (l : list BackupFile) : BackupFile * list BackupFile :=
  match l with
  | [] => (x, [])
  | y :: l =>
      if Before (ModifiedTime x) (ModifiedTime y)
      then let '(m, l') := pass y l in (m, x :: l')
      else let '(m, l') := pass x l in (m, y :: l')
  end.

(** [n] rounds of the outer loop. *)
Fixpoint rounds (n : nat) (l : list BackupFile) : list BackupFile :=
  match n, l with
  | S n, x :: l => let '(m, l') := pass x l in m :: rounds n l'
  | _, _ => l
  end.

(** Newest first. *)
Definition newest_first : list BackupFile → Prop :=
  StronglySorted (λ x y, (ModifiedTime y ≤ ModifiedTime x)%Z).

(** The delete loop on the entries it visits, one after the other. *)
Fixpoint delete_each (deleteFunc : string → M unit) (l : list BackupFile) (w : world)
  : result unit * world :=
  match l with
  | [] => (Ok tt, w)
  | b :: l =>
      match deleteFunc (Name b) w with
      | (Err err, w') =>
          (Err (wrapError ("failed to delete " +:+ Name b +:+ ": %w") err), w')
      | (Ok _, w') => delete_each deleteFunc l w'
      end
  end.

End storage.

(** ** Package utils *)

Module utils.

(** [int64(z)]: the value of [z] in 64 bits, two's complement. *)
Definition int64 (z : Z) : Z := ((z + 2 ^ 63) mod 2 ^ 64 - 2 ^ 63)%Z.

Definition unit : Z := 1024.

(** The loop of [FormatBytes],
    [for n := bytes / unit; n >= unit; n /= unit { div *= unit; exp++ }],
    from a state [(n, div, exp)] to the [(div, exp)] it ends with. *)
Equations FormatBytes_loop (n div exp : Z) : Z * Z by wf (Z.to_nat n) lt :=
  FormatBytes_loop n div exp with decide (unit ≤ n)%Z => {
    | left _ => FormatBytes_loop (n ÷ unit) (int64 (div * unit)) (int64 (exp + 1));
    | right _ => (div, exp)
  }.
Next Obligation.
  unfold unit in *. apply Z2Nat.inj_lt; try lia.
  - apply Z.quot_pos; lia.
  - apply Z.quot_lt; lia.
Qed.

Section FormatBytes.

(** [fmt.Sprintf("%d B", bytes)], and
    [fmt.Sprintf("%.1f %cB", float64(bytes)/float64(div), c)]. *)
Variable Sprintf_d_B : Z → string.
Variable Sprintf_f_cB : Z → Z → ascii → string.

Definition FormatBytes (bytes : Z) : go string :=
  if decide (bytes < unit)%Z then Returns (Sprintf_d_B bytes)
  else
    let '(div, exp) := FormatBytes_loop (bytes ÷ unit) unit 0 in
    match (if decide (0 ≤ exp)%Z then String.get (Z.to_nat exp) "KMGTPE" else None) with
    | Some c => Returns (Sprintf_f_cB bytes div c)
    | None => Panics (IndexOutOfRange exp 6)
    end.

End FormatBytes.

Section Gzip.

(** compress/gzip: what [gzip.NewWriter(buf)], [Write(data)] and [Close()]
    leave in [buf]; the error of [gzip.NewReader] on a buffer, if any (it
    reads the header); and [io.ReadAll] of the reader. *)
Variable gzip_Write_Close : list byte → list byte.
Variable gzip_NewReader : list byte → option error.
Variable gzip_ReadAll : list byte → result (list byte).

(** [CompressData(data)].  The writer's only source of errors is the
    [io.Writer] under it, and [writableBuffer.Write] returns [nil]. *)
Definition CompressData (data : list byte) : M (list byte) :=
  mret (gzip_Write_Close data).

(** [DecompressData(data)]. *)
Definition DecompressData (data : list byte) : M (list byte) :=
  match gzip_NewReader data with
  | Some err => fail (wrapError "failed to create gzip reader: %w" err)
  | None =>
      match gzip_ReadAll data with
      | Err err => fail (wrapError "failed to decompress data: %w" err)
      | Ok decompressed => mret decompressed
      end
  end.

End Gzip.

End utils.

(** ** Package cmd *)

Module cmd.

(** [truncate(s, maxLen)], and [truncatePDF], which has the same body. *)
Definition truncate (s : string) (maxLen : Z) : go string :=
  if decide (Z.of_nat (String.length s) ≤ maxLen)%Z then Returns s
  else
    match slice_to s (maxLen - 3) with
    | Returns prefix => Returns (prefix +:+ "...")
    | Panics p => Panics p
    end.


Section Backup.

Variable sha256_Sum : list byte → list byte.
Variable aesgcm_Seal : list byte → list byte → list byte → list byte.
Variable aesgcm_Open : list byte → list byte → list byte → option (list byte).
Variable gzip_Write_Close : list byte → list byte.
Variable gzip_NewReader : list byte → option error.
Variable gzip_ReadAll : list byte → result (list byte).

(** The bytes [backupManager] hands to the storage backends, from the
    exported vault data: compressed if [cfg.Backup.Compression], then
    sealed if [!noEncrypt && cfg.Backup.Encryption.Enabled]. *)
Definition backupManager_processedData (Compression encrypt : bool)
    (exportedData : list byte) (password : string) : M (list byte) :=
  processedData ←
    (if Compression
     then wrap "compression failed: %w" (utils.CompressData gzip_Write_Close exportedData)
     else mret exportedData);
  if encrypt
  then wrap "encryption failed: %w" (Encrypt sha256_Sum aesgcm_Seal processedData password)
  else mret processedData.

(** The bytes [runRestore] writes to the output file, from the backup it
    has loaded: always opened with [crypto.Decrypt] (on an error the
    command logs it and returns, nothing is written), then decompressed if
    [cfg.Backup.Compression], falling back to the decrypted bytes when
    [DecompressData] fails. *)
Definition runRestore_finalData (Compression : bool)
    (backupData : list byte) (password : string) : M (list byte) :=
  decryptedData ← Decrypt sha256_Sum aesgcm_Open backupData password;
  if Compression then
    or_else (utils.DecompressData gzip_NewReader gzip_ReadAll decryptedData)
      decryptedData
  else mret decryptedData.

End Backup.

(** What [handlePreviewMode] reports about the header of a backup: the
    warning it stops with, or the lines under ["Encryption Header:"]. *)
Inductive preview : Type :=
  | TooSmall                                (* "File too small to contain valid header" *)
  | NotEncryptedBackup (magic : list byte)  (* "File does not appear to be an encrypted stashr backup" *)
  | ValidHeader (magic : list byte) (version : N) (algorithmName : string).
                                            (* "Format: Valid stashr encrypted backup" *)

(** The header part of [handlePreviewMode(backupData, filename, source)]. *)
Definition handlePreviewMode_header (backupData : list byte) : go preview :=
  if decide (length backupData < 60) then Returns TooSmall else
  let magic := slice backupData 0 4 in
  if decide (magic ≠ bytes_of_string "PWBK") then Returns (NotEncryptedBackup magic) else
  match at_index backupData 4, at_index backupData 5,
        at_index backupData 6, at_index backupData 7 with
  | Returns b4, Returns b5, Returns b6, Returns b7 =>
      let version := N.lor (N.shiftl (Byte.to_N b4) 8) (Byte.to_N b5) in
      let algorithm := N.lor (N.shiftl (Byte.to_N b6) 8) (Byte.to_N b7) in
      let algorithmName :=
        if decide (algorithm = 1%N) then "AES-256-GCM" else "Unknown" in
      Returns (ValidHeader magic version algorithmName)
  | Panics p, _, _, _ | _, Panics p, _, _ | _, _, Panics p, _ | _, _, _, Panics p =>
      Panics p
  end.

End cmd.

(** ** More inputs to run the code on *)

Module Sample.

(** Worlds with entropy for two runs of [Encrypt], and for a key and its
    sealing. *)
Definition w_twice : world :=
  World (replicate 44 x01 ++ replicate 44 x02) ∅ false [].
Definition w_readonly : world :=
  World (replicate 32 x07 ++ Standin.entropy) ∅ true [].

(** A world with a plaintext file of mode [0644]. *)
Definition vault : string := "/tmp/vault.json".
Definition vault_enc : string := "/tmp/vault.json.enc".
Definition vault_out : string := "/tmp/vault.restored.json".

(** A password of 65 bytes, and the string of its digest under
    [Standin.sum]. *)
Definition long_password : string :=
  "correct-horse-battery-staple-correct-horse-battery-staple-correct".
Definition digest_password : string :=
  string_of_list_byte (Standin.sum (bytes_of_string long_password)).

(** Four backups in a directory, not in order of age. *)
Definition backup (name : string) (t : Z) : storage.BackupFile :=
  {| storage.Name := name; storage.Size := 1024; storage.ModifiedTime := t;
     storage.Location := "/backups/" +:+ name; storage.StorageType := "local" |}.
Definition b_tue : storage.BackupFile := backup "backup_bitwarden_tue.json.enc" 200.
Definition b_mon : storage.BackupFile := backup "backup_bitwarden_mon.json.enc" 100.
Definition b_thu : storage.BackupFile := backup "backup_bitwarden_thu.json.enc" 400.
Definition b_wed : storage.BackupFile := backup "backup_bitwarden_wed.json.enc" 300.
Definition backups : list storage.BackupFile := [b_tue; b_mon; b_thu; b_wed].
Definition w_backups : world :=
  World []
    (list_to_map ((λ b, (storage.Name b, File Standin.sealed_hello perm0600)) <$> backups))
    false [].

(** Three things to pass as [deleteFunc]: one that removes the file, one
    that removes it if it is there and succeeds anyway, and one that
    refuses a given name. *)
Definition remove (name : string) : M unit := λ w,
  match files w !! name with
  | Some _ => (Ok tt, set_files (delete name (files w)) w)
  | None => (Err (PathError "remove" name ENOENT), w)
  end.
Definition remove_force (name : string) : M unit := λ w,
  (Ok tt, set_files (delete name (files w)) w).
Definition remove_except (keep : string) (name : string) : M unit := λ w,
  if decide (name = keep) then (Err (PathError "remove" name EACCES), w)
  else (Ok tt, set_files (delete name (files w)) w).

(** Renderings that keep the arguments apart, and a two-byte framing in
    place of gzip. *)
Definition Sprintf_d_B (bytes : Z) : string := "<d> B".
Definition Sprintf_f_cB (bytes div : Z) (c : ascii) : string :=
  "<f> " +:+ String c "B".
Definition gzip_Write_Close (data : list byte) : list byte := [x1f; x8b] ++ data.
Definition gzip_NewReader (data : list byte) : option error :=
  if decide (take 2 data = [x1f; x8b]) then None else Some ErrUnexpectedEOF.
Definition gzip_ReadAll (data : list byte) : result (list byte) := Ok (drop 2 data).


End Sample.

(** ** Running the monad *)

Ltac run_monad :=
  unfold mbind, M_bind, mret, M_ret, wrap, fail, defer, make_secret, load, clearBytes in *;
  cbn [fst snd mem rand files readonly set_mem set_rand set_files] in *.

(** ** Bytes and buffers *)

Lemma zero_fill_spec (b : list byte) : zero_fill b = replicate (length b) x00.
Proof.
  unfold zero_fill.
  assert (G : ∀ k n (acc : list byte), length acc = k + n →
            foldl (λ acc i, <[i := x00]> acc) acc (seq k n)
            = take k acc ++ replicate n x00).
  { intros k n; revert k; induction n as [|n IH]; intros k acc Hl; cbn [seq foldl].
    - rewrite take_ge by lia. by rewrite app_nil_r.
    - rewrite IH by (rewrite length_insert; lia).
      rewrite (take_S_r _ k x00) by (apply list_lookup_insert_eq; lia).
      rewrite take_insert_ge by lia.
      by rewrite <- app_assoc. }
  rewrite (G 0 (length b) b) by lia. by rewrite take_0.
Qed.

Lemma mem_alter_last (f : list byte → list byte) (m : list (list byte)) (b : list byte) :
  alter f (length m) (m ++ [b]) = m ++ [f b].
Proof. by rewrite (alter_app_r_alt f m [b]), Nat.sub_diag by lia. Qed.

Lemma mem_lookup_last (m : list (list byte)) (b : list byte) :
  (m ++ [b]) !! length m = Some b.
Proof. by rewrite list_lookup_middle. Qed.

Lemma copy_same_length (dst src : list byte) :
  length src = length dst → copy dst src = src.
Proof.
  intros E. unfold copy. rewrite E, take_ge, drop_ge by lia. apply app_nil_r.
Qed.

(** ** One flipped bit *)





Lemma flip_app_r (h r : list byte) i bit :
  length h ≤ i → flip (h ++ r) i bit = h ++ flip r (i - length h) bit.
Proof. apply alter_app_r_alt. Qed.


(** *** The fields of a container, by offset *)

Lemma container_drop_16 salt nonce sealed :
  drop 16 (container salt nonce sealed) = salt ++ nonce ++ sealed.
Proof. reflexivity. Qed.

Lemma container_drop_48 salt nonce sealed :
  length salt = 32 → drop 48 (container salt nonce sealed) = nonce ++ sealed.
Proof.
  intros Hs. unfold container. rewrite (app_assoc header_prefix).
  apply drop_app_length'. by rewrite length_app, Hs.
Qed.

Lemma container_drop_60 salt nonce sealed :
  length salt = 32 → length nonce = 12 →
  drop 60 (container salt nonce sealed) = sealed.
Proof.
  intros Hs Hn. unfold container.
  rewrite (app_assoc header_prefix), (app_assoc (header_prefix ++ salt)).
  apply drop_app_length'. by rewrite !length_app, Hs, Hn.
Qed.

Lemma container_length salt nonce sealed :
  length salt = 32 → length nonce = 12 →
  length (container salt nonce sealed) = 60 + length sealed.
Proof.
  intros Hs Hn. unfold container. by rewrite !length_app, Hs, Hn.
Qed.

(** ** Key derivation: what the password enters through

    [pbkdf2.Key] uses the password only as the HMAC key, and HMAC pads a
    short key with zero bytes up to the block size.  A password and the
    same password followed by a NUL byte therefore derive the same key. *)

Lemma bytes_of_string_app (s t : string) :
  bytes_of_string (s ++ t) = bytes_of_string s ++ bytes_of_string t.
Proof.
  unfold bytes_of_string, list_byte_of_string.
  induction s as [|a s IH]; [reflexivity|].
  simpl. by rewrite IH.
Qed.

Lemma copy_zero_pad (n : nat) (key : list byte) :
  length key ≤ n →
  copy (replicate n x00) key = key ++ replicate (n - length key) x00.
Proof.
  intros Hk. unfold copy.
  by rewrite length_replicate, take_ge, drop_replicate by lia.
Qed.

Lemma N_iter_ext {A} (f g : A → A) (n : N) (x : A) :
  (∀ y, f y = g y) → N.iter n f x = N.iter n g x.
Proof.
  intros E. induction n as [|n IH] using N.peano_ind; [reflexivity|].
  by rewrite !N.iter_succ, IH, E.
Qed.

Section KeyDerivation.

Variable sha256_Sum : list byte → list byte.

Lemma hmac_Sum_trailing_zero (key msg : list byte) :
  length key < 64 →
  hmac_Sum sha256_Sum (key ++ [x00]) msg = hmac_Sum sha256_Sum key msg.
Proof.
  intros Hk. unfold hmac_Sum, sha256_BlockSize.
  rewrite !decide_False by (rewrite ?length_app; cbn [length]; lia).
  rewrite !copy_zero_pad by (rewrite ?length_app; cbn [length]; lia).
  rewrite length_app. cbn [length].
  replace (64 - length key) with (S (64 - (length key + 1))) by lia.
  cbn [replicate]. by rewrite <- !app_assoc.
Qed.

Lemma pbkdf2_block_hmac_ext (k1 k2 salt : list byte) (iter : N) (block : nat) :
  (∀ msg, hmac_Sum sha256_Sum k1 msg = hmac_Sum sha256_Sum k2 msg) →
  pbkdf2_block sha256_Sum k1 salt iter block
  = pbkdf2_block sha256_Sum k2 salt iter block.
Proof.
  intros E. unfold pbkdf2_block. rewrite E. f_equal.
  apply N_iter_ext. intros TU. by rewrite E.
Qed.

Lemma pbkdf2_Key_hmac_ext (k1 k2 salt : list byte) (iter : N) (keyLen : nat) :
  (∀ msg, hmac_Sum sha256_Sum k1 msg = hmac_Sum sha256_Sum k2 msg) →
  pbkdf2_Key sha256_Sum k1 salt iter keyLen = pbkdf2_Key sha256_Sum k2 salt iter keyLen.
Proof.
  intros E. unfold pbkdf2_Key. f_equal.
  generalize (@nil byte). generalize (seq 1 ((keyLen + sha256_Size - 1) / sha256_Size)).
  intros blocks. induction blocks as [|b blocks IH]; intros dk; [reflexivity|].
  cbn [foldl]. by rewrite IH, (pbkdf2_block_hmac_ext k1 k2).
Qed.

(** A password shorter than the hash block and the same password with a
    NUL byte appended derive the same key, whatever the salt. *)
Lemma GenerateKey_trailing_NUL (password : string) (salt : list byte) :
  length (bytes_of_string password) < 64 →
  GenerateKey sha256_Sum (password ++ NUL) salt = GenerateKey sha256_Sum password salt.
Proof.
  intros Hl. unfold GenerateKey. rewrite bytes_of_string_app.
  apply pbkdf2_Key_hmac_ext. intros msg.
  by apply hmac_Sum_trailing_zero.
Qed.

End KeyDerivation.

Section Properties.

Variable sha256_Sum : list byte → list byte.
Variable aesgcm_Seal : list byte → list byte → list byte → list byte.
Variable aesgcm_Open : list byte → list byte → list byte → option (list byte).

(** sha256.Size *)
Hypothesis sha256_Sum_length : ∀ m, length (sha256_Sum m) = 32.

(** What [Open] gets from [Seal] under the same key and nonce is the
    plaintext. *)
Hypothesis aesgcm_Open_Seal : ∀ key nonce plaintext,
  length key = 32 → length nonce = 12 →
  aesgcm_Open key nonce (aesgcm_Seal key nonce plaintext) = Some plaintext.

(** gcm.Overhead(): the tag is 16 bytes. *)
Hypothesis aesgcm_Seal_length : ∀ key nonce plaintext,
  length key = 32 → length nonce = 12 →
  length (aesgcm_Seal key nonce plaintext) = length plaintext + 16.

Local Abbreviation GenerateKey := (GenerateKey sha256_Sum).
Local Abbreviation Encrypt := (Encrypt sha256_Sum aesgcm_Seal).
Local Abbreviation Decrypt := (Decrypt sha256_Sum aesgcm_Open).

Lemma hmac_Sum_length key msg : length (hmac_Sum sha256_Sum key msg) = 32.
Proof using sha256_Sum_length. apply sha256_Sum_length. Qed.

Lemma pbkdf2_block_length password salt iter block :
  length (pbkdf2_block sha256_Sum password salt iter block) = 32.
Proof using sha256_Sum_length.
  unfold pbkdf2_block.
  match goal with |- context [N.iter ?n ?f ?x] =>
    assert (G : length (fst (N.iter n f x)) = 32 ∧ length (snd (N.iter n f x)) = 32)
  end.
  { apply N.iter_invariant.
    - intros [T U] [HT HU]; cbn [fst snd] in *.
      rewrite length_zip_with, HT, hmac_Sum_length. split; [lia | done].
    - cbn [fst snd]. by rewrite hmac_Sum_length. }
  apply G.
Qed.

(** The hundred thousand rounds are never unfolded by the proofs below. *)
Opaque pbkdf2_block.

Lemma GenerateKey_length password salt : length (GenerateKey password salt) = 32.
Proof using sha256_Sum_length.
  unfold GenerateKey, pbkdf2_Key, keyLength, sha256_Size.
  change ((32 + 32 - 1) / 32) with 1. cbn [seq foldl app].
  rewrite length_take, pbkdf2_block_length. lia.
Qed.

(** *** What [Encrypt] does, path by path *)

Lemma Encrypt_run plaintext password w :
  Encrypt plaintext password w =
    if decide (32 ≤ length (rand w)) then
      let salt := take 32 (rand w) in
      let key := GenerateKey password salt in
      if decide (12 ≤ length (drop 32 (rand w))) then
        let nonce := take 12 (drop 32 (rand w)) in
        (Ok (container salt nonce (aesgcm_Seal key nonce plaintext)),
         World (drop 12 (drop 32 (rand w))) (files w) (readonly w)
           (mem w ++ [replicate 32 x00]))
      else
        (Err (wrapError "failed to generate nonce: %w"
                (if decide (drop 32 (rand w) = []) then EOF else ErrUnexpectedEOF)),
         World [] (files w) (readonly w) (mem w ++ [key]))
    else
      (Err (wrapError "failed to generate salt: %w"
              (if decide (rand w = []) then EOF else ErrUnexpectedEOF)),
       World [] (files w) (readonly w) (mem w)).
Proof using sha256_Sum_length.
  unfold Encrypt, GenerateSalt, aes_NewCipher, cipher_NewGCM, rand_ReadFull,
    saltLength, nonceLength.
  run_monad.
  destruct (decide (32 ≤ length (rand w))) as [Hs|Hs]; [|done].
  run_monad. rewrite mem_lookup_last. cbn [from_option id].
  rewrite decide_True by (rewrite GenerateKey_length; auto).
  cbn [blockSize]. rewrite decide_True by done.
  run_monad.
  destruct (decide (12 ≤ length (drop 32 (rand w)))) as [Hn|Hn]; [|done].
  run_monad. rewrite mem_alter_last, zero_fill_spec, GenerateKey_length.
  f_equal. f_equal.
  unfold container, header_prefix, gcm_Seal. cbn [Magic Version Algorithm Reserved Salt Nonce gcmKey blockKey].
  rewrite !copy_same_length
    by (rewrite ?length_take, ?length_replicate; first [reflexivity | lia]).
  rewrite <- !app_assoc. reflexivity.
Qed.

(** *** What [Decrypt] does, path by path *)

Lemma Decrypt_run ciphertext password w :
  Decrypt ciphertext password w =
    if decide (length ciphertext < 76) then (Err ErrTruncated, w)
    else if decide (take 4 ciphertext ≠ bytes_of_string "PWBK") then (Err ErrBadMagic, w)
    else if decide (BigEndian_Uint16 (take 2 (drop 4 ciphertext)) ≠ 1%N)
      then (Err (ErrUnsupportedVersion (BigEndian_Uint16 (take 2 (drop 4 ciphertext)))), w)
    else if decide (BigEndian_Uint16 (take 2 (drop 6 ciphertext)) ≠ 1%N)
      then (Err (ErrUnsupportedAlgorithm (BigEndian_Uint16 (take 2 (drop 6 ciphertext)))), w)
    else
      (match aesgcm_Open (GenerateKey password (take 32 (drop 16 ciphertext)))
               (take 12 (drop 48 ciphertext)) (drop 60 ciphertext) with
       | Some plaintext => Ok plaintext
       | None => Err ErrDecryptionFailed
       end, after_Decrypt w).
Proof using sha256_Sum_length.
  unfold Decrypt, slice, saltLength, nonceLength, fileMagic, fileVersion,
    algorithmAES256GCM, aes_NewCipher, cipher_NewGCM, gcm_Open, after_Decrypt.
  cbn [Nat.add Nat.sub]. rewrite drop_0.
  repeat (case_decide; [reflexivity|]).
  run_monad. rewrite mem_lookup_last. cbn [from_option id].
  rewrite decide_True by (rewrite GenerateKey_length; auto).
  cbn [blockSize]. rewrite decide_True by done. cbn [gcmKey blockKey].
  destruct (aesgcm_Open _ _ _); run_monad;
    by rewrite mem_alter_last, zero_fill_spec, GenerateKey_length.
Qed.


(** [Encrypt] succeeds exactly when [rand.Reader] delivers the 32 salt bytes
    and the 12 nonce bytes. *)
Lemma Encrypt_succeeds_iff plaintext password w :
  44 ≤ length (rand w) ↔ ∃ c w', Encrypt plaintext password w = (Ok c, w').
Proof using sha256_Sum_length.
  rewrite Encrypt_run. split.
  - intros H. rewrite !decide_True by (rewrite ?length_drop; lia). cbn zeta. eauto.
  - intros (c & w' & E).
    destruct (decide (32 ≤ length (rand w))); [|discriminate E].
    cbn zeta in E.
    destruct (decide (12 ≤ length (drop 32 (rand w)))) as [H|]; [|discriminate E].
    rewrite length_drop in H. lia.
Qed.

Lemma Decrypt_container salt nonce sealed password w :
  length salt = 32 → length nonce = 12 → 16 ≤ length sealed →
  Decrypt (container salt nonce sealed) password w =
    (match aesgcm_Open (GenerateKey password salt) nonce sealed with
     | Some plaintext => Ok plaintext
     | None => Err ErrDecryptionFailed
     end, after_Decrypt w).
Proof using sha256_Sum_length.
  intros Hs Hn Hc. rewrite Decrypt_run.
  rewrite decide_False by (rewrite container_length by done; lia).
  rewrite decide_False by (intros H; by apply H).
  rewrite decide_False by (intros H; by apply H).
  rewrite decide_False by (intros H; by apply H).
  rewrite container_drop_16, container_drop_48, container_drop_60 by done.
  by rewrite !take_app_length' by done.
Qed.

(** C1. Round trip: when [rand.Reader] delivers the salt and the nonce,
    [Encrypt] returns a container, and whatever container [Encrypt] returns
    for a plaintext (the empty one included) and a password, [Decrypt] with
    the same password returns that plaintext, with no error. *)
Theorem Decrypt_Encrypt_roundtrip plaintext password w :
  (44 ≤ length (rand w) → ∃ c w', Encrypt plaintext password w = (Ok c, w'))
  ∧ (∀ c w' w2, Encrypt plaintext password w = (Ok c, w') →
       Decrypt c password w2 = (Ok plaintext, after_Decrypt w2)).
Proof using sha256_Sum_length aesgcm_Open_Seal aesgcm_Seal_length.
  split; [apply Encrypt_succeeds_iff|].
  intros c w' w2 E.
  assert (44 ≤ length (rand w)) as Hr by (apply (Encrypt_succeeds_iff plaintext password w); eauto).
  rewrite Encrypt_run, !decide_True in E by (rewrite ?length_drop; lia).
  cbn zeta in E. injection E as <- _.
  assert (length (take 32 (rand w)) = 32) as Hs by (rewrite length_take; lia).
  assert (length (take 12 (drop 32 (rand w))) = 12) as Hn
    by (rewrite length_take, length_drop; lia).
  rewrite Decrypt_container; auto.
  - by rewrite aesgcm_Open_Seal by auto using GenerateKey_length.
  - rewrite aesgcm_Seal_length by auto using GenerateKey_length. lia.
Qed.

(** C7. Container layout: a container [Encrypt] returns for a plaintext of
    [N] bytes has [76 + N] bytes; it starts with [50 57 42 4B 00 01 00 01],
    then eight zero bytes, the salt at offset 16, the nonce at offset 48,
    and from offset 60 the output of [gcm.Seal], which is [N + 16] bytes. *)
Theorem Encrypt_layout plaintext password w c w' :
  Encrypt plaintext password w = (Ok c, w') →
  length c = 76 + length plaintext
  ∧ take 8 c = [x50; x57; x42; x4b; x00; x01; x00; x01]
  ∧ take 4 c = bytes_of_string fileMagic
  ∧ BigEndian_Uint16 (slice c 4 6) = fileVersion
  ∧ BigEndian_Uint16 (slice c 6 8) = algorithmAES256GCM
  ∧ slice c 8 16 = replicate 8 x00
  ∧ slice c 16 48 = take 32 (rand w)
  ∧ slice c 48 60 = take 12 (drop 32 (rand w))
  ∧ drop 60 c = aesgcm_Seal (GenerateKey password (slice c 16 48)) (slice c 48 60) plaintext
  ∧ length (drop 60 c) = length plaintext + gcmTagSize.
Proof using sha256_Sum_length aesgcm_Seal_length.
  intros E.
  assert (44 ≤ length (rand w)) as Hr by (apply (Encrypt_succeeds_iff plaintext password w); eauto).
  rewrite Encrypt_run, !decide_True in E by (rewrite ?length_drop; lia).
  cbn zeta in E. injection E as <- _.
  set (salt := take 32 (rand w)). set (nonce := take 12 (drop 32 (rand w))).
  assert (length salt = 32) as Hs by (subst salt; rewrite length_take; lia).
  assert (length nonce = 12) as Hn
    by (subst nonce; rewrite length_take, length_drop; lia).
  unfold slice. cbn [Nat.sub].
  rewrite container_drop_16, container_drop_48, container_drop_60 by done.
  rewrite !take_app_length' by done.
  repeat split; try reflexivity.
  - rewrite container_length, aesgcm_Seal_length
      by auto using GenerateKey_length. lia.
  - by apply aesgcm_Seal_length; auto using GenerateKey_length.
Qed.


(** C4. Validation order of [Decrypt]: the length check comes first, then
    the magic bytes, then the version, then the algorithm; the first check
    that fails decides the error, whatever the later fields hold, and the
    world is returned untouched: no key has been derived, nothing was
    decrypted.  Only a buffer that passes all four reaches the key
    derivation, and from there the only error is [ErrDecryptionFailed]. *)
Theorem Decrypt_validation_order ciphertext password w :
  (length ciphertext < 76 →
     Decrypt ciphertext password w = (Err ErrTruncated, w))
  ∧ (76 ≤ length ciphertext →
     slice ciphertext 0 4 ≠ bytes_of_string fileMagic →
     Decrypt ciphertext password w = (Err ErrBadMagic, w))
  ∧ (76 ≤ length ciphertext →
     slice ciphertext 0 4 = bytes_of_string fileMagic →
     BigEndian_Uint16 (slice ciphertext 4 6) ≠ fileVersion →
     Decrypt ciphertext password w
     = (Err (ErrUnsupportedVersion (BigEndian_Uint16 (slice ciphertext 4 6))), w))
  ∧ (76 ≤ length ciphertext →
     slice ciphertext 0 4 = bytes_of_string fileMagic →
     BigEndian_Uint16 (slice ciphertext 4 6) = fileVersion →
     BigEndian_Uint16 (slice ciphertext 6 8) ≠ algorithmAES256GCM →
     Decrypt ciphertext password w
     = (Err (ErrUnsupportedAlgorithm (BigEndian_Uint16 (slice ciphertext 6 8))), w))
  ∧ (76 ≤ length ciphertext →
     slice ciphertext 0 4 = bytes_of_string fileMagic →
     BigEndian_Uint16 (slice ciphertext 4 6) = fileVersion →
     BigEndian_Uint16 (slice ciphertext 6 8) = algorithmAES256GCM →
     snd (Decrypt ciphertext password w) = after_Decrypt w
     ∧ ((∃ plaintext, fst (Decrypt ciphertext password w) = Ok plaintext)
        ∨ fst (Decrypt ciphertext password w) = Err ErrDecryptionFailed)).
Proof using sha256_Sum_length.
  unfold slice, fileMagic, fileVersion, algorithmAES256GCM. cbn [Nat.sub].
  rewrite drop_0, Decrypt_run.
  repeat split; intros;
    repeat (destruct (decide _); try (exfalso; first [lia | congruence | contradiction])).
  all: cbn [fst snd]; try reflexivity.
  destruct (aesgcm_Open _ _ _); eauto.
Qed.

(** The four format errors and the authentication error are five
    different values. *)
Lemma format_errors_distinct v a :
  NoDup [ErrTruncated; ErrBadMagic; ErrUnsupportedVersion v;
         ErrUnsupportedAlgorithm a; ErrDecryptionFailed].
Proof.
  repeat (apply NoDup_cons; split;
    [rewrite ?elem_of_cons, elem_of_nil; intuition discriminate|]).
  apply NoDup_nil_2.
Qed.

(** *** Key hygiene *)

(** X1. [Decrypt] leaves the key it derived zeroed, on success and on
    failure: when it returns, either it stopped at a header check and the
    world is untouched, or the one buffer it allocated holds 32 zero bytes. *)
Lemma Decrypt_clears_key ciphertext password w :
  snd (Decrypt ciphertext password w) = w
  ∨ mem (snd (Decrypt ciphertext password w)) = mem w ++ [replicate 32 x00].
Proof using sha256_Sum_length.
  rewrite Decrypt_run. repeat (case_decide; [by left|]). by right.
Qed.

(** X2. [Encrypt] leaves the key zeroed when it succeeds: the one buffer
    it allocated holds 32 zero bytes. *)
Lemma Encrypt_clears_key_on_success plaintext password w c w' :
  Encrypt plaintext password w = (Ok c, w') →
  mem w' = mem w ++ [replicate 32 x00].
Proof using sha256_Sum_length.
  rewrite Encrypt_run. repeat (case_decide; [|discriminate]).
  cbn zeta. by intros [= _ <-].
Qed.

(** C3 (where the code falls short). When [rand.Reader] delivers the salt
    and then fails on the nonce, [Encrypt] returns through
    [return nil, fmt.Errorf("failed to generate nonce: %w", err)] and the
    buffer of the derived key is left as [GenerateKey] filled it:
    [clearBytes(key)] sits on the success path only. *)
Theorem Encrypt_nonce_failure_leaves_key plaintext password w :
  32 ≤ length (rand w) < 44 →
  ∃ e w', Encrypt plaintext password w
          = (Err (wrapError "failed to generate nonce: %w" e), w')
        ∧ mem w' = mem w ++ [GenerateKey password (take 32 (rand w))].
Proof using sha256_Sum_length.
  intros Hr. rewrite Encrypt_run.
  rewrite decide_True, decide_False by (rewrite ?length_drop; lia).
  cbn zeta. eauto.
Qed.

(** *** The key file *)

(** C10. [GetOrCreateEncryptionKey] on a path that holds a file returns
    [nil] and changes nothing: not the file, not anything else in the
    world; calling it again is the same no-op. *)
Theorem GetOrCreateEncryptionKey_existing keyPath password password' w data perm :
  files w !! keyPath = Some (File data perm) →
  GetOrCreateEncryptionKey sha256_Sum aesgcm_Seal keyPath password w = (Ok tt, w)
  ∧ files (snd (GetOrCreateEncryptionKey sha256_Sum aesgcm_Seal keyPath password w))
      !! keyPath = Some (File data perm)
  ∧ GetOrCreateEncryptionKey sha256_Sum aesgcm_Seal keyPath password'
      (snd (GetOrCreateEncryptionKey sha256_Sum aesgcm_Seal keyPath password w))
    = (Ok tt, w).
Proof.
  intros Hf.
  assert (E : ∀ pw, GetOrCreateEncryptionKey sha256_Sum aesgcm_Seal keyPath pw w = (Ok tt, w)).
  { intros pw. unfold GetOrCreateEncryptionKey, os_Stat. by rewrite Hf. }
  by rewrite !E.
Qed.

(** C9 (where the code falls short). When [os.Stat] fails with an error
    other than not-exist, here a permission error, [os.IsNotExist(err)] is
    false, the whole [if] is skipped and the function returns [nil]: the
    error of [os.Stat] is dropped and no key file is written. *)
Theorem GetOrCreateEncryptionKey_drops_Stat_error keyPath password w :
  files w !! keyPath = Some NoAccess →
  os_Stat keyPath w = Some (PathError "stat" keyPath EACCES)
  ∧ GetOrCreateEncryptionKey sha256_Sum aesgcm_Seal keyPath password w = (Ok tt, w).
Proof.
  intros Hf. unfold GetOrCreateEncryptionKey, os_Stat. by rewrite Hf.
Qed.


(** *** Tampering *)



(** What [Encrypt] returns is a [container] over the bytes read from
    [rand.Reader]. *)
Lemma Encrypt_Ok_inv plaintext password w c w' :
  Encrypt plaintext password w = (Ok c, w') →
  ∃ salt nonce,
    length salt = 32 ∧ length nonce = 12
    ∧ c = container salt nonce (aesgcm_Seal (GenerateKey password salt) nonce plaintext).
Proof using sha256_Sum_length.
  intros E.
  assert (44 ≤ length (rand w)) as Hr
    by (apply (Encrypt_succeeds_iff plaintext password w); eauto).
  rewrite Encrypt_run, !decide_True in E by (rewrite ?length_drop; lia).
  cbn zeta in E. injection E as <- _.
  eexists _, _. split_and!; [| |reflexivity];
    rewrite length_take, ?length_drop; lia.
Qed.


(** [Decrypt] on a container that [Encrypt] returned, under any password:
    the header checks pass and [gcm.Open] decides. *)
Lemma Decrypt_sealed plaintext pw1 pw2 w c w' w2 :
  Encrypt plaintext pw1 w = (Ok c, w') →
  drop 60 c = aesgcm_Seal (GenerateKey pw1 (slice c 16 48)) (slice c 48 60) plaintext
  ∧ length (slice c 16 48) = 32 ∧ length (slice c 48 60) = 12
  ∧ Decrypt c pw2 w2 =
      (match aesgcm_Open (GenerateKey pw2 (slice c 16 48)) (slice c 48 60) (drop 60 c) with
       | Some x => Ok x
       | None => Err ErrDecryptionFailed
       end, after_Decrypt w2).
Proof using sha256_Sum_length aesgcm_Seal_length.
  intros E.
  destruct (Encrypt_Ok_inv _ _ _ _ _ E) as (salt & nonce & Hs & Hn & ->).
  unfold slice. cbn [Nat.sub].
  rewrite container_drop_16, container_drop_48, container_drop_60 by done.
  rewrite !take_app_length' by done.
  rewrite Decrypt_container
    by (rewrite ?aesgcm_Seal_length by auto using GenerateKey_length; done || lia).
  done.
Qed.

(** C5, as the code has it. A container sealed with [pw1] and opened with
    [pw2]: when [gcm.Open] rejects it under the key derived from [pw2],
    [Decrypt] returns [ErrDecryptionFailed]; when both passwords derive the
    same key, [Decrypt] returns the plaintext; and whatever happens, the
    only error is [ErrDecryptionFailed]. *)
Theorem Decrypt_other_password plaintext pw1 pw2 w c w' w2 :
  Encrypt plaintext pw1 w = (Ok c, w') →
  (aesgcm_Open (GenerateKey pw2 (slice c 16 48)) (slice c 48 60) (drop 60 c) = None →
     Decrypt c pw2 w2 = (Err ErrDecryptionFailed, after_Decrypt w2))
  ∧ (GenerateKey pw2 (slice c 16 48) = GenerateKey pw1 (slice c 16 48) →
     Decrypt c pw2 w2 = (Ok plaintext, after_Decrypt w2))
  ∧ (∀ e, fst (Decrypt c pw2 w2) = Err e → e = ErrDecryptionFailed).
Proof using sha256_Sum_length aesgcm_Open_Seal aesgcm_Seal_length.
  intros E.
  destruct (Decrypt_sealed plaintext pw1 pw2 w c w' w2 E) as (Hd & Hs & Hn & ->).
  split_and!.
  - by intros ->.
  - intros ->. by rewrite Hd, aesgcm_Open_Seal by auto using GenerateKey_length.
  - intros e. destruct (aesgcm_Open _ _ _); cbn [fst]; congruence.
Qed.


(** *** Loading the key file *)




End Properties.

(** ** The stand-in satisfies the assumptions on the hash and the cipher *)

Module StandinFacts.
Import Standin.

Lemma sum_length m : length (sum m) = 32.
Proof.
  unfold sum. repeat case_decide; [done| |done].
  assert (length (drop 64 m) = 32) as Hl by (by rewrite H0).
  rewrite length_drop in Hl. rewrite length_take. lia.
Qed.

Lemma checksum_length m : length (checksum m) = 16.
Proof. unfold checksum. by rewrite length_map, length_seq. Qed.

Lemma seal_length key nonce plaintext :
  length key = 32 → length nonce = 12 →
  length (seal key nonce plaintext) = length plaintext + 16.
Proof.
  intros _ _. unfold seal, tag. by rewrite length_app, checksum_length.
Qed.

Lemma open_seal key nonce plaintext :
  length key = 32 → length nonce = 12 →
  open key nonce (seal key nonce plaintext) = Some plaintext.
Proof.
  intros Hk Hn. unfold open.
  rewrite seal_length by done.
  rewrite decide_False by lia.
  replace (length plaintext + 16 - 16) with (length plaintext) by lia.
  unfold seal. rewrite take_app_length, drop_app_length.
  by rewrite decide_True.
Qed.


(** *** The key derivation over [sum], in closed form *)

Lemma byte_xor_zero_r b : byte_xor b x00 = b.
Proof. by destruct b. Qed.

Lemma xor_zeros (a : list byte) :
  zip_with byte_xor a (replicate (length a) x00) = a.
Proof.
  induction a as [|b a IH]; [done|].
  cbn [length replicate zip_with]. by rewrite IH, byte_xor_zero_r.
Qed.

Lemma pad_length (key : list byte) : length (copy (replicate 64 x00) key) = 64.
Proof.
  unfold copy. rewrite length_app, length_take, length_drop, !length_replicate. lia.
Qed.

Lemma opad_length key : length (opad key) = 64.
Proof. unfold opad. by rewrite length_map, pad_length. Qed.

Lemma sum_marked (pad : list byte) :
  length pad = 64 → sum (pad ++ marker) = take 32 pad.
Proof.
  intros Hp. unfold sum.
  rewrite decide_False by (rewrite length_app, Hp; cbn; lia).
  rewrite drop_app_length' by done. rewrite decide_True by done.
  by rewrite take_app_le by lia.
Qed.

Lemma sum_unmarked (pad msg : list byte) :
  length pad = 64 → length msg = 32 → msg ≠ marker →
  sum (pad ++ msg) = replicate 32 x00.
Proof.
  intros Hp Hm Hne. unfold sum.
  rewrite decide_False by (rewrite length_app, Hp, Hm; lia).
  rewrite drop_app_length' by done. by rewrite decide_False.
Qed.

Lemma hmac_first key msg :
  length msg = 36 → hmac_Sum sum key msg = take 32 (opad key).
Proof.
  intros Hm. unfold hmac_Sum, sha256_BlockSize. fold (opad key).
  replace (sum (_ ++ msg)) with marker; [apply sum_marked, opad_length|].
  unfold sum. by rewrite decide_True by (by rewrite length_app, length_map, pad_length, Hm).
Qed.

Lemma hmac_later key msg :
  length msg = 32 → msg ≠ marker → hmac_Sum sum key msg = replicate 32 x00.
Proof.
  intros Hm Hne. unfold hmac_Sum, sha256_BlockSize. fold (opad key).
  rewrite (sum_unmarked _ msg) by (rewrite ?length_map, ?pad_length; done).
  by rewrite sum_unmarked by (rewrite ?opad_length; done).
Qed.

Lemma N_iter_absorb {A} (f : A → A) (x y : A) (n : N) :
  f x = y → f y = y → N.iter (N.succ n) f x = y.
Proof.
  intros Hx Hy. rewrite N.iter_succ_r, Hx.
  by apply (N.iter_invariant n A f (λ z, z = y)); [intros ? ->|].
Qed.

Transparent pbkdf2_block.

Lemma pbkdf2_block_closed key salt block :
  length salt = 32 → take 32 (opad key) ≠ marker →
  pbkdf2_block sum key salt pbkdf2Iterations block = take 32 (opad key).
Proof.
  intros Hs Hne. unfold pbkdf2_block, pbkdf2Iterations.
  change (100000 - 1)%N with (N.succ 99998).
  rewrite hmac_first by (rewrite length_app, Hs; done).
  assert (length (take 32 (opad key)) = 32) as Hl
    by (rewrite length_take, opad_length; lia).
  rewrite (N_iter_absorb _ _ (take 32 (opad key), replicate 32 x00)); [done| |].
  - cbn [fst snd]. rewrite hmac_later by done.
    f_equal. rewrite <- Hl at 2. apply xor_zeros.
  - cbn [fst snd]. rewrite hmac_later by done.
    f_equal. rewrite <- Hl at 2. apply xor_zeros.
Qed.

Opaque pbkdf2_block.

Lemma GenerateKey_closed (password : string) (salt : list byte) :
  length (bytes_of_string password) ≤ 64 → length salt = 32 →
  derive (bytes_of_string password) ≠ marker →
  GenerateKey sum password salt = derive (bytes_of_string password).
Proof.
  intros Hp Hs Hne.
  assert (opad (bytes_of_string password)
          = map (byte_xor x5c) (bytes_of_string password
              ++ replicate (64 - length (bytes_of_string password)) x00)) as Ho.
  { unfold opad. rewrite decide_False by lia. by rewrite copy_zero_pad. }
  unfold GenerateKey, pbkdf2_Key, keyLength, sha256_Size.
  change ((32 + 32 - 1) / 32) with 1. cbn [seq foldl app].
  rewrite pbkdf2_block_closed by (rewrite ?Ho; done).
  rewrite Ho. unfold derive. by rewrite take_take.
Qed.



Lemma key_correct_horse salt :
  length salt = 32 →
  GenerateKey sum "correct-horse" salt = derive (bytes_of_string "correct-horse").
Proof.
  intros Hs. apply GenerateKey_closed; [vm_compute; lia|done|vm_compute; discriminate].
Qed.

Lemma key_wrong_password salt :
  length salt = 32 →
  GenerateKey sum "wrong-password" salt = derive (bytes_of_string "wrong-password").
Proof.
  intros Hs. apply GenerateKey_closed; [vm_compute; lia|done|vm_compute; discriminate].
Qed.

(** *** The scenario, run *)

Lemma Encrypt_hello :
  Encrypt sum seal hello "correct-horse" w0 = (Ok sealed_hello, w1).
Proof.
  rewrite (Encrypt_run sum seal sum_length).
  rewrite !decide_True by (vm_compute; lia). cbn zeta.
  rewrite key_correct_horse by reflexivity.
  vm_compute. reflexivity.
Qed.

Lemma Decrypt_hello_wrong_password w :
  Decrypt sum open sealed_hello "wrong-password" w
  = (Err ErrDecryptionFailed, after_Decrypt w).
Proof.
  rewrite (Decrypt_run sum open sum_length).
  rewrite key_wrong_password by reflexivity.
  vm_compute. reflexivity.
Qed.

Lemma open_hello_wrong_password :
  open (GenerateKey sum "wrong-password" (slice sealed_hello 16 48))
    (slice sealed_hello 48 60) (drop 60 sealed_hello) = None.
Proof. rewrite key_wrong_password by reflexivity. vm_compute. reflexivity. Qed.


End StandinFacts.

(** ** The theorems on the scenario *)

(** Witness of C1: ["hello, world!"] sealed with ["correct-horse"] opens
    with ["correct-horse"]. *)
Lemma Decrypt_Encrypt_roundtrip_hello :
  Encrypt Standin.sum Standin.seal Standin.hello "correct-horse" Standin.w0
  = (Ok Standin.sealed_hello, Standin.w1)
  ∧ ∀ w, Decrypt Standin.sum Standin.open Standin.sealed_hello "correct-horse" w
         = (Ok Standin.hello, after_Decrypt w).
Proof.
  split; [exact StandinFacts.Encrypt_hello|]. intros w.
  exact (proj2 (Decrypt_Encrypt_roundtrip Standin.sum Standin.seal Standin.open
                  StandinFacts.sum_length StandinFacts.open_seal StandinFacts.seal_length
                  Standin.hello "correct-horse" Standin.w0)
           Standin.sealed_hello Standin.w1 w StandinFacts.Encrypt_hello).
Defined.

(** Witness of C7: the layout of that container, 76 + 13 bytes. *)
Lemma Encrypt_layout_hello :
  length Standin.sealed_hello = 76 + length Standin.hello
  ∧ take 8 Standin.sealed_hello = [x50; x57; x42; x4b; x00; x01; x00; x01]
  ∧ take 4 Standin.sealed_hello = bytes_of_string fileMagic
  ∧ BigEndian_Uint16 (slice Standin.sealed_hello 4 6) = fileVersion
  ∧ BigEndian_Uint16 (slice Standin.sealed_hello 6 8) = algorithmAES256GCM
  ∧ slice Standin.sealed_hello 8 16 = replicate 8 x00
  ∧ slice Standin.sealed_hello 16 48 = take 32 (rand Standin.w0)
  ∧ slice Standin.sealed_hello 48 60 = take 12 (drop 32 (rand Standin.w0))
  ∧ drop 60 Standin.sealed_hello
    = Standin.seal
        (GenerateKey Standin.sum "correct-horse" (slice Standin.sealed_hello 16 48))
        (slice Standin.sealed_hello 48 60) Standin.hello
  ∧ length (drop 60 Standin.sealed_hello) = length Standin.hello + gcmTagSize.
Proof.
  exact (Encrypt_layout Standin.sum Standin.seal
           StandinFacts.sum_length StandinFacts.seal_length
           Standin.hello "correct-horse" Standin.w0 Standin.sealed_hello Standin.w1
           StandinFacts.Encrypt_hello).
Defined.

(** Witness of C4: four buffers, each stopped by its own check, the world
    untouched. *)
Lemma Decrypt_validation_order_buffers :
  Decrypt Standin.sum Standin.open Standin.too_short "correct-horse" Standin.w0
  = (Err ErrTruncated, Standin.w0)
  ∧ Decrypt Standin.sum Standin.open Standin.bad_magic "correct-horse" Standin.w0
    = (Err ErrBadMagic, Standin.w0)
  ∧ Decrypt Standin.sum Standin.open Standin.bad_version "correct-horse" Standin.w0
    = (Err (ErrUnsupportedVersion
              (BigEndian_Uint16 (slice Standin.bad_version 4 6))), Standin.w0)
  ∧ Decrypt Standin.sum Standin.open Standin.bad_algorithm "correct-horse" Standin.w0
    = (Err (ErrUnsupportedAlgorithm
              (BigEndian_Uint16 (slice Standin.bad_algorithm 6 8))), Standin.w0).
Proof.
  pose proof (Decrypt_validation_order Standin.sum Standin.open StandinFacts.sum_length) as V.
  split_and!.
  - destruct (V Standin.too_short "correct-horse" Standin.w0) as (H & _).
    apply H. vm_compute. lia.
  - destruct (V Standin.bad_magic "correct-horse" Standin.w0) as (_ & H & _).
    apply H; [vm_compute; lia|vm_compute; discriminate].
  - destruct (V Standin.bad_version "correct-horse" Standin.w0) as (_ & _ & H & _).
    apply H; [vm_compute; lia|reflexivity|vm_compute; discriminate].
  - destruct (V Standin.bad_algorithm "correct-horse" Standin.w0) as (_ & _ & _ & H & _).
    apply H; [vm_compute; lia|reflexivity|reflexivity|vm_compute; discriminate].
Defined.

(** Witness of C10: the key file is there; nothing changes. *)
Lemma GetOrCreateEncryptionKey_existing_keyfile :
  GetOrCreateEncryptionKey Standin.sum Standin.seal Standin.keyPath "correct-horse"
    Standin.w_keyfile = (Ok tt, Standin.w_keyfile)
  ∧ files (snd (GetOrCreateEncryptionKey Standin.sum Standin.seal Standin.keyPath
                  "correct-horse" Standin.w_keyfile)) !! Standin.keyPath
    = Some (File Standin.sealed_hello perm0600)
  ∧ GetOrCreateEncryptionKey Standin.sum Standin.seal Standin.keyPath "wrong-password"
      (snd (GetOrCreateEncryptionKey Standin.sum Standin.seal Standin.keyPath
              "correct-horse" Standin.w_keyfile))
    = (Ok tt, Standin.w_keyfile).
Proof.
  assert (Hf : files Standin.w_keyfile !! Standin.keyPath
               = Some (File Standin.sealed_hello perm0600))
    by apply lookup_insert_eq.
  exact (GetOrCreateEncryptionKey_existing Standin.sum Standin.seal
           Standin.keyPath "correct-horse" "wrong-password" Standin.w_keyfile
           Standin.sealed_hello perm0600 Hf).
Defined.

(** C9 on an input: [os.Stat] fails with a permission error and
    [GetOrCreateEncryptionKey] returns [nil]. *)
Lemma GetOrCreateEncryptionKey_drops_Stat_error_noaccess :
  os_Stat Standin.keyPath Standin.w_noaccess
  = Some (PathError "stat" Standin.keyPath EACCES)
  ∧ GetOrCreateEncryptionKey Standin.sum Standin.seal Standin.keyPath "correct-horse"
      Standin.w_noaccess = (Ok tt, Standin.w_noaccess).
Proof.
  assert (Hf : files Standin.w_noaccess !! Standin.keyPath = Some NoAccess)
    by apply lookup_insert_eq.
  exact (GetOrCreateEncryptionKey_drops_Stat_error Standin.sum Standin.seal
           Standin.keyPath "correct-horse" Standin.w_noaccess Hf).
Defined.

(** C3 on an input: [rand.Reader] fails after forty bytes. *)
Lemma Encrypt_nonce_failure_leaves_key_short :
  ∃ e w', Encrypt Standin.sum Standin.seal Standin.hello "correct-horse" Standin.w_short
          = (Err (wrapError "failed to generate nonce: %w" e), w')
        ∧ mem w' = mem Standin.w_short
                   ++ [GenerateKey Standin.sum "correct-horse"
                         (take 32 (rand Standin.w_short))].
Proof.
  assert (Hr : 32 ≤ length (rand Standin.w_short) < 44) by (vm_compute; lia).
  exact (Encrypt_nonce_failure_leaves_key Standin.sum Standin.seal
           StandinFacts.sum_length Standin.hello "correct-horse" Standin.w_short Hr).
Defined.




(** Witness of C5 as the code has it: ["wrong-password"] on the container
    sealed with ["correct-horse"]. *)
Lemma Decrypt_other_password_hello :
  Decrypt Standin.sum Standin.open Standin.sealed_hello "wrong-password" Standin.w0
  = (Err ErrDecryptionFailed, after_Decrypt Standin.w0).
Proof.
  destruct (Decrypt_other_password Standin.sum Standin.seal Standin.open
           StandinFacts.sum_length StandinFacts.open_seal StandinFacts.seal_length
           Standin.hello "correct-horse" "wrong-password" Standin.w0
           Standin.sealed_hello Standin.w1 Standin.w0 StandinFacts.Encrypt_hello)
    as (Hrejected & _).
  apply Hrejected. exact StandinFacts.open_hello_wrong_password.
Defined.

(** Counterexample to C5: ["correct-horse"] followed by a NUL byte is a
    different password, and it opens the container sealed with
    ["correct-horse"]: HMAC pads its key with zero bytes, so both derive
    the same key ([GenerateKey_trailing_NUL], over any hash). *)
Lemma NUL_padded_password_accepted :
  "correct-horse" +:+ NUL ≠ "correct-horse"
  ∧ Encrypt Standin.sum Standin.seal Standin.hello "correct-horse" Standin.w0
    = (Ok Standin.sealed_hello, Standin.w1)
  ∧ Decrypt Standin.sum Standin.open Standin.sealed_hello ("correct-horse" +:+ NUL)
      Standin.w0 = (Ok Standin.hello, after_Decrypt Standin.w0).
Proof.
  split_and!; [discriminate|exact StandinFacts.Encrypt_hello|].
  rewrite (Decrypt_run Standin.sum Standin.open StandinFacts.sum_length).
  rewrite GenerateKey_trailing_NUL by (vm_compute; lia).
  rewrite StandinFacts.key_correct_horse by reflexivity.
  vm_compute. reflexivity.
Qed.





(** Witness of the hygiene of [Decrypt]: after opening the scenario's
    container with the wrong password, the key buffer holds zeros. *)
Lemma Decrypt_clears_key_hello :
  snd (Decrypt Standin.sum Standin.open Standin.sealed_hello "wrong-password" Standin.w0)
  = Standin.w0
  ∨ mem (snd (Decrypt Standin.sum Standin.open Standin.sealed_hello "wrong-password"
                Standin.w0))
    = mem Standin.w0 ++ [replicate 32 x00].
Proof.
  exact (Decrypt_clears_key Standin.sum Standin.open StandinFacts.sum_length
           Standin.sealed_hello "wrong-password" Standin.w0).
Defined.

(** Witness of the hygiene of [Encrypt] on its success path. *)
Lemma Encrypt_clears_key_hello :
  mem Standin.w1 = mem Standin.w0 ++ [replicate 32 x00].
Proof.
  exact (Encrypt_clears_key_on_success Standin.sum Standin.seal StandinFacts.sum_length
           Standin.hello "correct-horse" Standin.w0 Standin.sealed_hello Standin.w1
           StandinFacts.Encrypt_hello).
Defined.

(** * More of encryption.go *)

(** X3. [clearBytes] overwrites every byte of the slice it is given with
    zero and keeps its length; no other buffer, no file and no entropy is
    touched. *)
Theorem clearBytes_effect a w :
  fst (clearBytes a w) = Ok tt
  ∧ rand (snd (clearBytes a w)) = rand w
  ∧ files (snd (clearBytes a w)) = files w
  ∧ readonly (snd (clearBytes a w)) = readonly w
  ∧ mem (snd (clearBytes a w)) !! a
    = (λ b, replicate (length b) x00) <$> (mem w !! a)
  ∧ ∀ a', a' ≠ a → mem (snd (clearBytes a w)) !! a' = mem w !! a'.
Proof.
  unfold clearBytes. cbn [fst snd rand files readonly mem set_mem].
  split_and!; try reflexivity.
  - rewrite list_lookup_alter. rewrite decide_True by done.
    destruct (mem w !! a) as [b|]; [|done]. cbn. by rewrite zero_fill_spec.
  - intros a' Hne. by rewrite list_lookup_alter_ne.
Qed.

Section MoreProperties.

Variable sha256_Sum : list byte → list byte.
Variable aesgcm_Seal : list byte → list byte → list byte → list byte.
Variable aesgcm_Open : list byte → list byte → list byte → option (list byte).
Hypothesis sha256_Sum_length : ∀ m, length (sha256_Sum m) = 32.
Hypothesis aesgcm_Open_Seal : ∀ key nonce plaintext,
  length key = 32 → length nonce = 12 →
  aesgcm_Open key nonce (aesgcm_Seal key nonce plaintext) = Some plaintext.
Hypothesis aesgcm_Seal_length : ∀ key nonce plaintext,
  length key = 32 → length nonce = 12 →
  length (aesgcm_Seal key nonce plaintext) = length plaintext + 16.

Local Abbreviation GenerateKey := (GenerateKey sha256_Sum).
Local Abbreviation Encrypt := (Encrypt sha256_Sum aesgcm_Seal).
Local Abbreviation Decrypt := (Decrypt sha256_Sum aesgcm_Open).
Local Abbreviation EncryptFile := (EncryptFile sha256_Sum aesgcm_Seal).
Local Abbreviation DecryptFile := (DecryptFile sha256_Sum aesgcm_Open).
Local Abbreviation GetOrCreateEncryptionKey :=
  (GetOrCreateEncryptionKey sha256_Sum aesgcm_Seal).
Local Abbreviation LoadEncryptionKey := (LoadEncryptionKey sha256_Sum aesgcm_Open).


(** X5. Every error of [Decrypt] is one of five: the four format errors,
    with a version or an algorithm other than 1 inside, or
    [ErrDecryptionFailed]. *)
Theorem Decrypt_errors ciphertext password w e :
  fst (Decrypt ciphertext password w) = Err e →
  e = ErrTruncated ∨ e = ErrBadMagic
  ∨ (∃ v, v ≠ fileVersion ∧ e = ErrUnsupportedVersion v)
  ∨ (∃ a, a ≠ algorithmAES256GCM ∧ e = ErrUnsupportedAlgorithm a)
  ∨ e = ErrDecryptionFailed.
Proof using sha256_Sum_length.
  rewrite Decrypt_run by done.
  repeat (destruct (decide _); [cbn [fst]; intros [= <-]; eauto 10|]).
  cbn [fst]. destruct (aesgcm_Open _ _ _); [discriminate|].
  intros [= <-]. eauto 10.
Qed.

(** The files are the same before and after [Decrypt]. *)
Lemma Decrypt_files ciphertext password w :
  files (snd (Decrypt ciphertext password w)) = files w.
Proof using sha256_Sum_length.
  rewrite Decrypt_run by done.
  by repeat (destruct (decide _); [done|]).
Qed.

(** X6. [Decrypt] reads no entropy and touches no file, whatever it is
    given and whatever it returns. *)
Theorem Decrypt_frame ciphertext password w :
  rand (snd (Decrypt ciphertext password w)) = rand w
  ∧ files (snd (Decrypt ciphertext password w)) = files w
  ∧ readonly (snd (Decrypt ciphertext password w)) = readonly w.
Proof using sha256_Sum_length.
  split; [|split; [apply Decrypt_files|]];
    rewrite Decrypt_run by done;
    by repeat (destruct (decide _); [done|]).
Qed.

(** X7. [Decrypt] never looks at the eight reserved bytes: two buffers that
    differ only at offsets 8 to 15 get the same answer. *)
Theorem Decrypt_ignores_reserved (h r r' rest : list byte) password w :
  length h = 8 → length r = 8 → length r' = 8 →
  Decrypt (h ++ r ++ rest) password w = Decrypt (h ++ r' ++ rest) password w.
Proof using sha256_Sum_length.
  intros Hh Hr Hr'.
  assert (D : ∀ n x, 16 ≤ n → length x = 8 →
            drop n (h ++ x ++ rest) = drop (n - 16) rest).
  { intros n x Hn Hx. rewrite (app_assoc h x), drop_app_ge
      by (rewrite length_app; lia).
    by rewrite length_app, Hh, Hx. }
  assert (G : ∀ x, length x = 8 →
            Decrypt (h ++ x ++ rest) password w
            = Decrypt (h ++ replicate 8 x00 ++ rest) password w).
  { intros x Hx. rewrite !Decrypt_run by done.
    rewrite !length_app, Hx, length_replicate.
    rewrite (take_app_le h (x ++ rest)), (take_app_le h (replicate 8 x00 ++ rest)) by lia.
    rewrite (drop_app_le h (x ++ rest) 4), (drop_app_le h (x ++ rest) 6),
      (drop_app_le h (replicate 8 x00 ++ rest) 4),
      (drop_app_le h (replicate 8 x00 ++ rest) 6) by lia.
    rewrite (take_app_le (drop 4 h) (x ++ rest)), (take_app_le (drop 6 h) (x ++ rest)),
      (take_app_le (drop 4 h) (replicate 8 x00 ++ rest)),
      (take_app_le (drop 6 h) (replicate 8 x00 ++ rest))
      by (rewrite length_drop; lia).
    rewrite (D 16 x), (D 48 x), (D 60 x), (D 16 (replicate 8 x00)),
      (D 48 (replicate 8 x00)), (D 60 (replicate 8 x00))
      by (assumption || lia || apply length_replicate).
    reflexivity. }
  by rewrite (G r), (G r').
Qed.



(** [Encrypt] with enough entropy, in one equation. *)
Lemma Encrypt_Ok_run plaintext password w :
  44 ≤ length (rand w) →
  Encrypt plaintext password w =
    (Ok (container (take 32 (rand w)) (take 12 (drop 32 (rand w)))
           (aesgcm_Seal (GenerateKey password (take 32 (rand w)))
              (take 12 (drop 32 (rand w))) plaintext)),
     World (drop 44 (rand w)) (files w) (readonly w) (mem w ++ [replicate 32 x00])).
Proof using sha256_Sum_length.
  intros Hr. rewrite Encrypt_run by done.
  rewrite !decide_True by (rewrite ?length_drop; lia). cbn zeta.
  by rewrite drop_drop.
Qed.

(** X8. [Encrypt] twice in a row, same plaintext, same password: the first
    container carries the first 44 bytes [rand.Reader] delivers as salt and
    nonce, the second the next 44, and when these differ the two
    containers differ. *)
Theorem Encrypt_twice plaintext password w c1 w1 c2 w2 :
  Encrypt plaintext password w = (Ok c1, w1) →
  Encrypt plaintext password w1 = (Ok c2, w2) →
  slice c1 16 60 = take 44 (rand w)
  ∧ slice c2 16 60 = take 44 (drop 44 (rand w))
  ∧ (take 44 (rand w) ≠ take 44 (drop 44 (rand w)) → c1 ≠ c2).
Proof using sha256_Sum_length.
  intros E1 E2.
  assert (44 ≤ length (rand w)) as H1
    by (eapply (Encrypt_succeeds_iff sha256_Sum aesgcm_Seal); eauto).
  assert (44 ≤ length (rand w1)) as H2
    by (eapply (Encrypt_succeeds_iff sha256_Sum aesgcm_Seal); eauto).
  rewrite Encrypt_Ok_run in E1 by done. injection E1 as <- <-.
  cbn [rand] in H2. rewrite length_drop in H2.
  rewrite Encrypt_Ok_run in E2 by (cbn [rand]; rewrite length_drop; lia).
  injection E2 as <- _. cbn [rand].
  assert (S : ∀ salt nonce sealed, length salt = 32 → length nonce = 12 →
            slice (container salt nonce sealed) 16 60 = salt ++ nonce).
  { intros salt nonce sealed Hs Hn. unfold slice. cbn [Nat.sub].
    rewrite container_drop_16, app_assoc.
    apply take_app_length'. by rewrite length_app, Hs, Hn. }
  assert (T : ∀ l : list byte, 44 ≤ length l →
            take 32 l ++ take 12 (drop 32 l) = take 44 l).
  { intros l Hl. by rewrite (take_take_drop l 32 12). }
  rewrite !S by (rewrite length_take, ?length_drop; lia).
  rewrite !T by (rewrite ?length_drop; lia).
  split_and!; [done..|].
  intros Hne Heq. apply Hne.
  apply (f_equal (λ c, slice c 16 60)) in Heq.
  rewrite !S in Heq by (rewrite length_take, ?length_drop; lia).
  by rewrite !T in Heq by (rewrite ?length_drop; lia).
Qed.

(** *** The file wrappers *)


(** X10. [EncryptFile] writes only after it has read and sealed: when it
    returns an error that is not the wrapped error of [os.WriteFile], no
    file has changed. *)
Theorem EncryptFile_error_writes_nothing inp enc password w e w' :
  EncryptFile inp enc password w = (Err e, w') →
  files w' = files w
  ∨ ∃ cause, e = wrapError "failed to write output file: %w" cause.
Proof using sha256_Sum_length.
  unfold EncryptFile. run_monad.
  destruct (os_ReadFile inp w) as [[data|e0] w0] eqn:Er.
  - assert (w0 = w) as ->.
    { unfold os_ReadFile in Er.
      destruct (files w !! inp) as [[? p| |]|]; try congruence.
      destruct (owner_can 8 p); congruence. }
    rewrite Encrypt_run by done.
    destruct (decide (32 ≤ length (rand w))); cbn zeta;
      [destruct (decide (12 ≤ length (drop 32 (rand w))))|].
    + destruct (os_WriteFile _ _ _ _) as [[[]|e1] w2]; [discriminate|].
      intros [= <- <-]. eauto.
    + intros [= <- <-]. by left.
    + intros [= <- <-]. by left.
  - intros [= <- <-]. left. unfold os_ReadFile in Er.
    destruct (files w !! inp) as [[? p| |]|]; try congruence.
    destruct (owner_can 8 p); congruence.
Qed.

(** X11. [DecryptFile] hands the error of [Decrypt] back as it is, not
    wrapped, and writes nothing: a file that fails a header check or the
    authentication leaves the output path and every other file untouched. *)
Theorem DecryptFile_Decrypt_error enc out password w c perm e w' :
  files w !! enc = Some (File c perm) → owner_can 8 perm = true →
  Decrypt c password w = (Err e, w') →
  DecryptFile enc out password w = (Err e, w') ∧ files w' = files w.
Proof using sha256_Sum_length.
  intros Hf Hp Hd. split.
  - unfold DecryptFile, os_ReadFile. run_monad. by rewrite Hf, Hp, Hd.
  - pose proof (Decrypt_files c password w) as F.
    by rewrite Hd in F.
Qed.

(** *** The key file *)

(** [GetOrCreateEncryptionKey] where no key file exists, path by path. *)
Lemma GetOrCreateEncryptionKey_run keyPath password w :
  files w !! keyPath = None →
  GetOrCreateEncryptionKey keyPath password w =
    let a := length (mem w) in
    if decide (32 ≤ length (rand w)) then
      let key := take 32 (rand w) in
      let w1 := World (drop 32 (rand w)) (files w) (readonly w) (mem w ++ [key]) in
      match Encrypt key password w1 with
      | (Err e, w2) => (Err (wrapError "failed to encrypt key: %w" e), w2)
      | (Ok c, w2) =>
          if readonly w
          then (Err (wrapError "failed to write key file: %w"
                       (PathError "open" keyPath EROFS)), w2)
          else (Ok tt, World (rand w2) (<[keyPath := File c perm0600]> (files w))
                         false (alter zero_fill a (mem w2)))
      end
    else
      (Err (wrapError "failed to generate key: %w"
              (if decide (rand w = []) then EOF else ErrUnexpectedEOF)),
       World [] (files w) (readonly w)
         (mem w ++ [copy (replicate 32 x00) (rand w)])).
Proof using sha256_Sum_length.
  intros Hf. unfold GetOrCreateEncryptionKey, os_Stat. rewrite Hf.
  cbn [IsNotExist]. unfold rand_ReadFull_secret, os_WriteFile. run_monad.
  rewrite mem_lookup_last. cbn [from_option id]. rewrite length_replicate.
  cbn zeta.
  destruct (decide (32 ≤ length (rand w))) as [Hr|Hr].
  - run_monad.
    assert (<[length (mem w) := take 32 (rand w)]> (mem w ++ [replicate 32 x00])
            = mem w ++ [take 32 (rand w)]) as ->.
    { rewrite insert_app_r_alt, Nat.sub_diag by done. done. }
    rewrite mem_lookup_last. cbn [from_option id].
    unfold set_rand, set_mem, set_files. cbn [rand files readonly mem].
    rewrite !Encrypt_run by done. cbn [rand files readonly mem].
    destruct (decide (32 ≤ length (drop 32 (rand w)))); cbn zeta; [|done].
    destruct (decide (12 ≤ length (drop 32 (drop 32 (rand w))))); [|done].
    unfold set_rand, set_mem, set_files. cbn [readonly files rand mem].
    destruct (readonly w) eqn:Hro; [done|].
    by rewrite Hf.
  - run_monad. f_equal. f_equal.
    rewrite insert_app_r_alt, Nat.sub_diag by done. done.
Qed.


(** X13. When [GetOrCreateEncryptionKey] returns an error, there was no
    file at the key path; and unless the error is the wrapped error of
    [os.WriteFile], no file has been created or changed: the write comes
    last, after the key has been drawn and sealed. *)
Theorem GetOrCreateEncryptionKey_error_writes_nothing keyPath password w e w' :
  GetOrCreateEncryptionKey keyPath password w = (Err e, w') →
  files w !! keyPath = None
  ∧ (files w' = files w
     ∨ ∃ cause, e = wrapError "failed to write key file: %w" cause).
Proof using sha256_Sum_length.
  intros E.
  destruct (files w !! keyPath) as [n|] eqn:Hf.
  { unfold GetOrCreateEncryptionKey, os_Stat in E. rewrite Hf in E.
    by destruct n. }
  split; [done|].
  rewrite GetOrCreateEncryptionKey_run in E by done. cbn zeta in E.
  destruct (decide (32 ≤ length (rand w))); [|left; by injection E as _ <-].
  rewrite Encrypt_run in E by done. cbn [rand files readonly mem] in E.
  destruct (decide (32 ≤ length (drop 32 (rand w)))); cbn zeta in E;
    [|left; by injection E as _ <-].
  destruct (decide (12 ≤ length (drop 32 (drop 32 (rand w)))));
    [|left; by injection E as _ <-].
  destruct (readonly w); [|discriminate]. right. injection E as <- _. eauto.
Qed.

(** X14. [GetOrCreateEncryptionKey] clears the random key only after the
    write has succeeded ([clearBytes(key)] is the last statement, not
    deferred).  On a read-only file system, with no key file and enough
    entropy, the call returns the wrapped error of [os.WriteFile] and the
    32 random bytes of the key are still in their buffer. *)
Theorem GetOrCreateEncryptionKey_write_failure_leaves_key keyPath password w :
  files w !! keyPath = None → readonly w = true → 76 ≤ length (rand w) →
  ∃ w',
    GetOrCreateEncryptionKey keyPath password w
    = (Err (wrapError "failed to write key file: %w"
              (PathError "open" keyPath EROFS)), w')
    ∧ mem w' !! length (mem w) = Some (take 32 (rand w))
    ∧ files w' = files w.
Proof using sha256_Sum_length.
  intros Hf Hro Hr.
  rewrite GetOrCreateEncryptionKey_run by done.
  rewrite decide_True by lia. cbn zeta.
  rewrite Encrypt_Ok_run by (cbn [rand]; rewrite length_drop; lia).
  rewrite Hro. eexists. split_and!; [reflexivity| |reflexivity].
  cbn [mem]. rewrite <- (assoc_L (++)).
  replace (length (mem w)) with (length (mem w) + 0) by lia.
  by rewrite lookup_app_r, Nat.add_sub' by lia.
Qed.

(** X15. The errors of [LoadEncryptionKey]: the error of [os.ReadFile]
    under ["failed to read key file: %w"], the world untouched, or an error
    of [Decrypt] under ["failed to decrypt key: %w"]; either way no file
    has changed.  With no file at the path, it is the first, around the
    not-exist error. *)
Theorem LoadEncryptionKey_errors keyPath password w e w' :
  LoadEncryptionKey keyPath password w = (Err e, w') →
  files w' = files w
  ∧ ((∃ op errno, e = wrapError "failed to read key file: %w"
                        (PathError op keyPath errno) ∧ w' = w)
     ∨ (∃ data perm cause, files w !! keyPath = Some (File data perm)
          ∧ Decrypt data password w = (Err cause, w')
          ∧ e = wrapError "failed to decrypt key: %w" cause))
  ∧ (files w !! keyPath = None →
     e = wrapError "failed to read key file: %w" (PathError "open" keyPath ENOENT)).
Proof using sha256_Sum_length.
  unfold LoadEncryptionKey, os_ReadFile. run_monad.
  destruct (files w !! keyPath) as [[data perm| |]|] eqn:Hf.
  - destruct (owner_can 8 perm).
    + destruct (Decrypt data password w) as [[pt|cause] w1] eqn:Hd; [discriminate|].
      intros [= <- <-]. split_and!; [|right; by eauto 8|done].
      pose proof (Decrypt_files data password w) as F.
      by rewrite Hd in F.
    + intros [= <- <-]. split_and!; [done|left; eauto|done].
  - intros [= <- <-]. split_and!; [done|left; eauto|done].
  - intros [= <- <-]. split_and!; [done|left; eauto|done].
  - intros [= <- <-]. split_and!; [done|left; eauto|done].
Qed.

(** *** Passwords longer than a hash block *)

(** X16. HMAC hashes a key longer than its 64-byte block before use, and
    [pbkdf2.Key] keys every round with the password.  So a password of
    more than 64 bytes and the string made of its SHA-256 digest derive
    the same key, and [Decrypt] cannot tell them apart. *)
Theorem Decrypt_long_password (p q : string) ciphertext w :
  64 < length (bytes_of_string p) →
  bytes_of_string q = sha256_Sum (bytes_of_string p) →
  (∀ salt, GenerateKey p salt = GenerateKey q salt)
  ∧ Decrypt ciphertext p w = Decrypt ciphertext q w.
Proof using sha256_Sum_length.
  intros Hp Hq.
  assert (K : ∀ salt, GenerateKey p salt = GenerateKey q salt).
  { intros salt. unfold GenerateKey.
    apply pbkdf2_Key_hmac_ext. intros msg. unfold hmac_Sum.
    rewrite Hq, sha256_Sum_length.
    rewrite decide_True by (unfold sha256_BlockSize; lia).
    rewrite decide_False by (unfold sha256_BlockSize; lia). done. }
  split; [done|].
  by rewrite !Decrypt_run, K by done.
Qed.

End MoreProperties.

(** ** These theorems on inputs *)


(** The scenario's container, opened with the wrong password. *)
Lemma Decrypt_errors_wrong_password :
  ErrDecryptionFailed = ErrTruncated ∨ ErrDecryptionFailed = ErrBadMagic
  ∨ (∃ v, v ≠ fileVersion ∧ ErrDecryptionFailed = ErrUnsupportedVersion v)
  ∨ (∃ a, a ≠ algorithmAES256GCM ∧ ErrDecryptionFailed = ErrUnsupportedAlgorithm a)
  ∨ ErrDecryptionFailed = ErrDecryptionFailed.
Proof.
  exact (Decrypt_errors Standin.sum Standin.open StandinFacts.sum_length
           Standin.sealed_hello "wrong-password" Standin.w0 ErrDecryptionFailed
           (f_equal fst (StandinFacts.Decrypt_hello_wrong_password Standin.w0))).
Defined.

(** [Decrypt] in the world that holds the key file. *)
Lemma Decrypt_frame_keyfile :
  rand (snd (Decrypt Standin.sum Standin.open Standin.sealed_hello "wrong-password"
               Standin.w_keyfile)) = rand Standin.w_keyfile
  ∧ files (snd (Decrypt Standin.sum Standin.open Standin.sealed_hello "wrong-password"
                  Standin.w_keyfile)) = files Standin.w_keyfile
  ∧ readonly (snd (Decrypt Standin.sum Standin.open Standin.sealed_hello
                     "wrong-password" Standin.w_keyfile))
    = readonly Standin.w_keyfile.
Proof.
  exact (Decrypt_frame Standin.sum Standin.open StandinFacts.sum_length
           Standin.sealed_hello "wrong-password" Standin.w_keyfile).
Defined.

(** The scenario's container with the reserved bytes set to [00] and to [ff]. *)
Lemma Decrypt_ignores_reserved_hello :
  Decrypt Standin.sum Standin.open
    (take 8 Standin.sealed_hello ++ replicate 8 x00 ++ drop 16 Standin.sealed_hello)
    "correct-horse" Standin.w0
  = Decrypt Standin.sum Standin.open
      (take 8 Standin.sealed_hello ++ replicate 8 xff ++ drop 16 Standin.sealed_hello)
      "correct-horse" Standin.w0.
Proof.
  exact (Decrypt_ignores_reserved Standin.sum Standin.open StandinFacts.sum_length
           (take 8 Standin.sealed_hello) (replicate 8 x00) (replicate 8 xff)
           (drop 16 Standin.sealed_hello) "correct-horse" Standin.w0
           eq_refl eq_refl eq_refl).
Defined.

(** Two runs of [Encrypt] on 88 bytes of entropy. *)
Lemma Encrypt_twice_differs :
  ∃ c1 c2,
    slice c1 16 60 = take 44 (rand Sample.w_twice)
    ∧ slice c2 16 60 = take 44 (drop 44 (rand Sample.w_twice))
    ∧ (take 44 (rand Sample.w_twice) ≠ take 44 (drop 44 (rand Sample.w_twice))
       → c1 ≠ c2).
Proof.
  assert (H1 : 44 ≤ length (rand Sample.w_twice)) by (vm_compute; lia).
  assert (H2 : 44 ≤ length (rand (World (drop 44 (rand Sample.w_twice))
                                    (files Sample.w_twice) (readonly Sample.w_twice)
                                    (mem Sample.w_twice ++ [replicate 32 x00]))))
    by (vm_compute; lia).
  eexists _, _.
  exact (Encrypt_twice Standin.sum Standin.seal StandinFacts.sum_length
           Standin.hello "correct-horse" Sample.w_twice _ _ _ _
           (Encrypt_Ok_run Standin.sum Standin.seal StandinFacts.sum_length
              Standin.hello "correct-horse" Sample.w_twice H1)
           (Encrypt_Ok_run Standin.sum Standin.seal StandinFacts.sum_length
              Standin.hello "correct-horse" _ H2)).
Defined.


(** [EncryptFile] on a path that does not exist. *)
Lemma EncryptFile_error_writes_nothing_missing :
  files Standin.w0 = files Standin.w0
  ∨ ∃ cause, wrapError "failed to read input file: %w"
               (PathError "open" Sample.vault ENOENT)
             = wrapError "failed to write output file: %w" cause.
Proof.
  assert (H : EncryptFile Standin.sum Standin.seal Sample.vault Sample.vault_enc
                "correct-horse" Standin.w0
              = (Err (wrapError "failed to read input file: %w"
                        (PathError "open" Sample.vault ENOENT)), Standin.w0))
    by (vm_compute; reflexivity).
  exact (EncryptFile_error_writes_nothing Standin.sum Standin.seal
           StandinFacts.sum_length Sample.vault Sample.vault_enc "correct-horse"
           Standin.w0 _ _ H).
Defined.

(** [DecryptFile] on the key file with the wrong password. *)
Lemma DecryptFile_Decrypt_error_keyfile :
  DecryptFile Standin.sum Standin.open Standin.keyPath Sample.vault_out "wrong-password"
    Standin.w_keyfile = (Err ErrDecryptionFailed, after_Decrypt Standin.w_keyfile)
  ∧ files (after_Decrypt Standin.w_keyfile) = files Standin.w_keyfile.
Proof.
  assert (H1 : files Standin.w_keyfile !! Standin.keyPath
               = Some (File Standin.sealed_hello perm0600))
    by (vm_compute; reflexivity).
  assert (H2 : owner_can 8 perm0600 = true) by reflexivity.
  exact (DecryptFile_Decrypt_error Standin.sum Standin.open StandinFacts.sum_length
           Standin.keyPath Sample.vault_out "wrong-password" Standin.w_keyfile
           Standin.sealed_hello perm0600 ErrDecryptionFailed
           (after_Decrypt Standin.w_keyfile) H1 H2
           (StandinFacts.Decrypt_hello_wrong_password Standin.w_keyfile)).
Defined.


(** No key file and no entropy. *)
Lemma GetOrCreateEncryptionKey_error_writes_nothing_no_entropy :
  files Standin.w1 !! Standin.keyPath = None
  ∧ (files (World [] ∅ false [replicate 32 x00; replicate 32 x00]) = files Standin.w1
     ∨ ∃ cause, wrapError "failed to generate key: %w" EOF
                = wrapError "failed to write key file: %w" cause).
Proof.
  assert (H : GetOrCreateEncryptionKey Standin.sum Standin.seal Standin.keyPath
                "correct-horse" Standin.w1
              = (Err (wrapError "failed to generate key: %w" EOF),
                 World [] ∅ false [replicate 32 x00; replicate 32 x00]))
    by (vm_compute; reflexivity).
  exact (GetOrCreateEncryptionKey_error_writes_nothing Standin.sum Standin.seal
           StandinFacts.sum_length Standin.keyPath "correct-horse" Standin.w1 _ _ H).
Defined.

(** No key file, a read-only file system. *)
Lemma GetOrCreateEncryptionKey_write_failure_readonly :
  ∃ w',
    GetOrCreateEncryptionKey Standin.sum Standin.seal Standin.keyPath "correct-horse"
      Sample.w_readonly
    = (Err (wrapError "failed to write key file: %w"
              (PathError "open" Standin.keyPath EROFS)), w')
    ∧ mem w' !! length (mem Sample.w_readonly) = Some (take 32 (rand Sample.w_readonly))
    ∧ files w' = files Sample.w_readonly.
Proof.
  assert (H1 : files Sample.w_readonly !! Standin.keyPath = None)
    by (vm_compute; reflexivity).
  assert (H2 : readonly Sample.w_readonly = true) by reflexivity.
  assert (H3 : 76 ≤ length (rand Sample.w_readonly)) by (vm_compute; lia).
  exact (GetOrCreateEncryptionKey_write_failure_leaves_key Standin.sum Standin.seal
           StandinFacts.sum_length Standin.keyPath "correct-horse" Sample.w_readonly
           H1 H2 H3).
Defined.

(** [LoadEncryptionKey] where there is no key file. *)
Lemma LoadEncryptionKey_errors_missing :
  files Standin.w0 = files Standin.w0
  ∧ ((∃ op errno,
        wrapError "failed to read key file: %w" (PathError "open" Standin.keyPath ENOENT)
        = wrapError "failed to read key file: %w" (PathError op Standin.keyPath errno)
        ∧ Standin.w0 = Standin.w0)
     ∨ (∃ data perm cause,
          files Standin.w0 !! Standin.keyPath = Some (File data perm)
          ∧ Decrypt Standin.sum Standin.open data "correct-horse" Standin.w0
            = (Err cause, Standin.w0)
          ∧ wrapError "failed to read key file: %w"
              (PathError "open" Standin.keyPath ENOENT)
            = wrapError "failed to decrypt key: %w" cause))
  ∧ (files Standin.w0 !! Standin.keyPath = None →
     wrapError "failed to read key file: %w" (PathError "open" Standin.keyPath ENOENT)
     = wrapError "failed to read key file: %w" (PathError "open" Standin.keyPath ENOENT)).
Proof.
  assert (H : LoadEncryptionKey Standin.sum Standin.open Standin.keyPath "correct-horse"
                Standin.w0
              = (Err (wrapError "failed to read key file: %w"
                        (PathError "open" Standin.keyPath ENOENT)), Standin.w0))
    by (vm_compute; reflexivity).
  exact (LoadEncryptionKey_errors Standin.sum Standin.open StandinFacts.sum_length
           Standin.keyPath "correct-horse" Standin.w0 _ _ H).
Defined.

(** A password of 65 bytes and the string of its digest. *)
Lemma Decrypt_long_password_digest :
  (∀ salt, GenerateKey Standin.sum Sample.long_password salt
           = GenerateKey Standin.sum Sample.digest_password salt)
  ∧ Decrypt Standin.sum Standin.open Standin.sealed_hello Sample.long_password Standin.w0
    = Decrypt Standin.sum Standin.open Standin.sealed_hello Sample.digest_password
        Standin.w0.
Proof.
  assert (H1 : 64 < length (bytes_of_string Sample.long_password))
    by (vm_compute; lia).
  assert (H2 : bytes_of_string Sample.digest_password
               = Standin.sum (bytes_of_string Sample.long_password))
    by (vm_compute; reflexivity).
  exact (Decrypt_long_password Standin.sum Standin.open StandinFacts.sum_length
           Sample.long_password Sample.digest_password Standin.sealed_hello Standin.w0
           H1 H2).
Defined.

(** * Around the container: storage, utils, cmd *)

Import storage.

(** ** The retention policy *)

Lemma pass_length x l : length (pass x l).2 = length l.
Proof.
  revert x; induction l as [|y l IH]; intros x; cbn; [done|].
  destruct (Before _ _).
  - specialize (IH y). destruct (pass y l). cbn in *. lia.
  - specialize (IH x). destruct (pass x l). cbn in *. lia.
Qed.

Lemma pass_Permutation x l : (pass x l).1 :: (pass x l).2 ≡ₚ x :: l.
Proof.
  revert x; induction l as [|y l IH]; intros x; cbn; [done|].
  destruct (Before _ _).
  - specialize (IH y). destruct (pass y l) as [m l']. cbn in *.
    by rewrite (Permutation_swap x m l'), IH.
  - specialize (IH x). destruct (pass x l) as [m l']. cbn in *.
    rewrite (Permutation_swap y m l'), IH. apply Permutation_swap.
Qed.

Lemma pass_newest x l :
  (ModifiedTime x ≤ ModifiedTime (pass x l).1)%Z
  ∧ Forall (λ y, (ModifiedTime y ≤ ModifiedTime (pass x l).1)%Z) (pass x l).2.
Proof.
  revert x; induction l as [|y l IH]; intros x; cbn; [split; [lia|constructor]|].
  unfold Before. destruct (Z.ltb_spec (ModifiedTime x) (ModifiedTime y)).
  - destruct (IH y) as [H1 H2]. destruct (pass y l) as [m l']. cbn in *.
    split; [lia|]. constructor; [lia|done].
  - destruct (IH x) as [H1 H2]. destruct (pass x l) as [m l']. cbn in *.
    split; [lia|]. constructor; [lia|done].
Qed.

Lemma rounds_length n l : length (rounds n l) = length l.
Proof.
  revert l; induction n as [|n IH]; intros [|x l]; cbn; try done.
  pose proof (pass_length x l). destruct (pass x l) as [m l']. cbn in *.
  rewrite IH. lia.
Qed.

Lemma rounds_Permutation n l : rounds n l ≡ₚ l.
Proof.
  revert l; induction n as [|n IH]; intros [|x l]; cbn; try done.
  pose proof (pass_Permutation x l). destruct (pass x l) as [m l']. cbn in *.
  by rewrite IH.
Qed.

Lemma rounds_newest_first n l : length l - 1 ≤ n → newest_first (rounds n l).
Proof.
  revert l; induction n as [|n IH]; intros [|x l] Hn; cbn in *.
  - constructor.
  - destruct l; [|cbn in Hn; lia]. repeat constructor.
  - constructor.
  - pose proof (pass_newest x l) as [_ Hm]. pose proof (pass_length x l) as Hl.
    destruct (pass x l) as [m l']. cbn in *.
    constructor.
    + apply IH. lia.
    + by rewrite rounds_Permutation.
Qed.

(** The inner loop is [pass]. *)
Lemma inner_loop_pass pre x l :
  for_range (length pre + 1) (length (pre ++ x :: l)) (swap_if_Before (length pre))
    (pre ++ x :: l)
  = Returns (pre ++ (pass x l).1 :: (pass x l).2).
Proof.
  unfold for_range.
  replace (length (pre ++ x :: l) - (length pre + 1)) with (length l)
    by (rewrite length_app; cbn; lia).
  assert (G : ∀ l done x,
    foldl (λ acc j, match acc with
                    | Returns a => swap_if_Before (length pre) j a
                    | Panics p => Panics p end)
      (Returns (pre ++ x :: done ++ l)) (seq (length pre + 1 + length done) (length l))
    = Returns (pre ++ (pass x l).1 :: done ++ (pass x l).2)).
  { clear. intros l. induction l as [|y l IH]; intros done x; cbn [length seq foldl pass].
    - done.
    - assert ((pre ++ x :: done ++ y :: l) !! length pre = Some x) as Hi
        by (by apply list_lookup_middle).
      assert ((pre ++ x :: done ++ y :: l) !! (length pre + 1 + length done) = Some y) as Hj.
      { replace (pre ++ x :: done ++ y :: l) with ((pre ++ x :: done) ++ y :: l)
          by (by rewrite <- (assoc_L (++))).
        apply list_lookup_middle. rewrite !length_app. cbn. lia. }
      unfold swap_if_Before at 2. rewrite Hi, Hj.
      replace (S (length pre + 1 + length done))
        with (length pre + 1 + length (done ++ [x]))
        by (rewrite length_app; cbn; lia).
      destruct (Before (ModifiedTime x) (ModifiedTime y)).
      + assert (<[length pre + 1 + length done := x]>
                  (<[length pre := y]> (pre ++ x :: done ++ y :: l))
                = pre ++ y :: (done ++ [x]) ++ l) as ->.
        { rewrite (insert_app_r_alt pre), Nat.sub_diag by lia. cbn [insert list_insert].
          replace (pre ++ y :: done ++ y :: l) with ((pre ++ y :: done) ++ y :: l)
            by (by rewrite <- (assoc_L (++))).
          rewrite insert_app_r_alt by (rewrite length_app; cbn; lia).
          replace (length pre + 1 + length done - length (pre ++ y :: done)) with 0
            by (rewrite length_app; cbn; lia).
          cbn [insert list_insert]. by rewrite <- !(assoc_L (++)). }
        rewrite IH. destruct (pass y l) as [m l']. cbn [fst snd].
        by rewrite <- (assoc_L (++)).
      + replace (pre ++ x :: done ++ y :: l) with (pre ++ x :: (done ++ [y]) ++ l)
          by (by rewrite <- (assoc_L (++))).
        replace (length (done ++ [x])) with (length (done ++ [y]))
          by (by rewrite !length_app).
        rewrite IH. destruct (pass x l) as [m l']. cbn [fst snd].
        by rewrite <- (assoc_L (++)). }
  specialize (G l [] x). cbn [app length] in G. rewrite Nat.add_0_r in G. exact G.
Qed.

(** The outer loop is [rounds]. *)
Lemma outer_loop_rounds (backups : list BackupFile) :
  for_range 0 (length backups - 1)
    (λ i backups, for_range (i + 1) (length backups) (swap_if_Before i) backups) backups
  = Returns (rounds (length backups - 1) backups).
Proof.
  unfold for_range at 1. rewrite Nat.sub_0_r.
  assert (G : ∀ n pre l, n ≤ length l →
    foldl (λ acc i, match acc with
                    | Returns a => for_range (i + 1) (length a) (swap_if_Before i) a
                    | Panics p => Panics p end)
      (Returns (pre ++ l)) (seq (length pre) n)
    = Returns (pre ++ rounds n l)).
  { clear. intros n. induction n as [|n IH]; intros pre l Hn; cbn [seq foldl rounds].
    - done.
    - destruct l as [|x l]; [cbn in Hn; lia|].
      rewrite inner_loop_pass.
      pose proof (pass_length x l) as Hl. destruct (pass x l) as [m l']. cbn [fst snd] in *.
      replace (S (length pre)) with (length (pre ++ [m])) by (rewrite length_app; cbn; lia).
      replace (pre ++ m :: l') with ((pre ++ [m]) ++ l') by (by rewrite <- (assoc_L (++))).
      rewrite IH by (cbn in Hn; lia). by rewrite <- (assoc_L (++)). }
  apply (G _ [] backups). lia.
Qed.

Lemma delete_loop_each deleteFunc backups n (k : nat) w :
  k + n ≤ length backups →
  delete_loop deleteFunc backups n (Z.of_nat k) w
  = (Returns (delete_each deleteFunc (take n (drop k backups)) w).1,
     (delete_each deleteFunc (take n (drop k backups)) w).2).
Proof.
  revert k w; induction n as [|n IH]; intros k w Hk; cbn [delete_loop].
  - by rewrite take_0.
  - unfold at_index. rewrite decide_True by lia. rewrite Nat2Z.id.
    destruct (lookup_lt_is_Some_2 backups k ltac:(lia)) as [b Hb]. rewrite Hb.
    rewrite (drop_S _ _ _ Hb). cbn [take delete_each].
    destruct (deleteFunc (Name b) w) as [[[]|err] w']; [|done].
    replace (Z.of_nat k + 1)%Z with (Z.of_nat (S k)) by lia.
    apply IH. lia.
Qed.

Lemma delete_each_all_Ok deleteFunc l w :
  (∀ name w, (deleteFunc name w).1 = Ok tt) →
  delete_each deleteFunc l w
  = (Ok tt, foldl (λ w b, (deleteFunc (Name b) w).2) w l).
Proof.
  intros Hok. revert w; induction l as [|b l IH]; intros w; cbn [delete_each foldl]; [done|].
  specialize (Hok (Name b) w). destruct (deleteFunc (Name b) w) as [[[]|err] w']; [|done].
  apply IH.
Qed.

Lemma delete_each_first_Err deleteFunc done x rest err w :
  (∀ y w, y ∈ done → (deleteFunc (Name y) w).1 = Ok tt) →
  (∀ w, (deleteFunc (Name x) w).1 = Err err) →
  delete_each deleteFunc (done ++ x :: rest) w
  = (Err (wrapError ("failed to delete " +:+ Name x +:+ ": %w") err),
     (deleteFunc (Name x) (foldl (λ w b, (deleteFunc (Name b) w).2) w done)).2).
Proof.
  intros Hok Herr. revert w; induction done as [|b done IH]; intros w;
    cbn [app delete_each foldl].
  - specialize (Herr w). destruct (deleteFunc (Name x) w) as [[[]|e] w']; [done|].
    cbn in Herr. by injection Herr as ->.
  - pose proof (Hok b w ltac:(left)) as Hb.
    destruct (deleteFunc (Name b) w) as [[[]|e] w']; [|done].
    apply IH. intros y w0 Hy. apply Hok. by right.
Qed.

Lemma newest_first_app l1 l2 :
  newest_first (l1 ++ l2) →
  ∀ x y, x ∈ l1 → y ∈ l2 → (ModifiedTime y ≤ ModifiedTime x)%Z.
Proof.
  unfold newest_first. induction l1 as [|a l1 IH]; intros Hs x y Hx Hy;
    [by apply elem_of_nil in Hx|].
  cbn in Hs. apply StronglySorted_inv in Hs as [Hs Ha].
  apply elem_of_cons in Hx as [->|Hx]; [|by apply IH].
  rewrite Forall_forall in Ha. apply Ha. apply elem_of_app. by right.
Qed.

(** [ApplyRetentionPolicy], path by path. *)
Lemma ApplyRetentionPolicy_run backups keepLast deleteFunc w :
  ApplyRetentionPolicy backups keepLast deleteFunc w =
    if decide (Z.of_nat (length backups) ≤ keepLast)%Z
    then (Returns (Ok tt, backups), w)
    else
      let sorted := rounds (length backups - 1) backups in
      if decide (keepLast < 0)%Z
      then (Panics (IndexOutOfRange keepLast (length backups)), w)
      else
        let deleted := drop (Z.to_nat keepLast) sorted in
        (Returns ((delete_each deleteFunc deleted w).1, sorted),
         (delete_each deleteFunc deleted w).2).
Proof.
  unfold ApplyRetentionPolicy. case_decide as Hlen; [done|].
  rewrite outer_loop_rounds. cbn zeta.
  pose proof (rounds_length (length backups - 1) backups) as Hl. rewrite Hl.
  case_decide as Hneg.
  - destruct (Z.to_nat (Z.of_nat (length backups) - keepLast)) as [|n] eqn:Hn; [lia|].
    cbn [delete_loop]. unfold at_index. rewrite decide_False by lia. by rewrite Hl.
  - replace keepLast with (Z.of_nat (Z.to_nat keepLast)) at 2 by lia.
    rewrite delete_loop_each by lia.
    by rewrite take_ge by (rewrite length_drop; lia).
Qed.

(** X17. For a [keepLast] that is not negative, [ApplyRetentionPolicy]
    never panics, whatever [deleteFunc] does, and it only reorders the
    caller's slice: with more than [keepLast] entries the slice comes back
    sorted newest first; with at most [keepLast] entries nothing happens at
    all, the slice is not even sorted. *)
Theorem ApplyRetentionPolicy_sorts backups keepLast deleteFunc w :
  (0 ≤ keepLast)%Z →
  ∃ r backups',
    (ApplyRetentionPolicy backups keepLast deleteFunc w).1 = Returns (r, backups')
    ∧ backups' ≡ₚ backups
    ∧ ((keepLast < Z.of_nat (length backups))%Z → newest_first backups')
    ∧ ((Z.of_nat (length backups) ≤ keepLast)%Z →
       ApplyRetentionPolicy backups keepLast deleteFunc w = (Returns (Ok tt, backups), w)).
Proof.
  intros Hk. rewrite ApplyRetentionPolicy_run.
  case_decide as Hlen.
  - exists (Ok tt), backups. split_and!; [done|done|lia|done].
  - cbn zeta. rewrite decide_False by lia. cbn [fst].
    eexists _, _. split_and!; [done| | |lia].
    + apply rounds_Permutation.
    + intros _. by apply rounds_newest_first.
Qed.

(** X18. With [0 <= keepLast < len(backups)] and a [deleteFunc] that
    succeeds, [ApplyRetentionPolicy] returns [nil]; the sorted slice splits
    into the [keepLast] entries that stay, each at least as new as every
    entry that goes, and the others, whose names [deleteFunc] was called
    with, in that order, once each. *)
Theorem ApplyRetentionPolicy_deletes_oldest backups keepLast deleteFunc w :
  (0 ≤ keepLast < Z.of_nat (length backups))%Z →
  (∀ name w, (deleteFunc name w).1 = Ok tt) →
  ∃ kept deleted,
    ApplyRetentionPolicy backups keepLast deleteFunc w
    = (Returns (Ok tt, kept ++ deleted),
       foldl (λ w b, (deleteFunc (Name b) w).2) w deleted)
    ∧ kept ++ deleted ≡ₚ backups
    ∧ length kept = Z.to_nat keepLast
    ∧ ∀ x y, x ∈ kept → y ∈ deleted → (ModifiedTime y ≤ ModifiedTime x)%Z.
Proof.
  intros Hk Hok. rewrite ApplyRetentionPolicy_run.
  rewrite !decide_False by lia. cbn zeta.
  set (sorted := rounds (length backups - 1) backups).
  exists (take (Z.to_nat keepLast) sorted), (drop (Z.to_nat keepLast) sorted).
  rewrite take_drop, delete_each_all_Ok by done. cbn [fst snd].
  split_and!; [done|apply rounds_Permutation| |].
  - rewrite length_take. subst sorted. rewrite rounds_length. lia.
  - assert (newest_first sorted) as Hs by (by apply rounds_newest_first).
    rewrite <- (take_drop (Z.to_nat keepLast) sorted) in Hs.
    intros x y Hx Hy. by apply (newest_first_app _ _ Hs).
Qed.

(** X19. The delete loop stops at the first failure.  When the entries
    after the first [keepLast] of the sorted slice are [done], then [x],
    then [rest], [deleteFunc] succeeds on the names in [done] and fails on
    the name of [x] with [err], the call returns
    ["failed to delete <name of x>: %w"] around [err]; by then [deleteFunc]
    has run on [done] and on [x], and on none of [rest]. *)
Theorem ApplyRetentionPolicy_stops_at_first_failure
    backups keepLast deleteFunc w r backups' w' done x rest err :
  (0 ≤ keepLast)%Z →
  ApplyRetentionPolicy backups keepLast deleteFunc w = (Returns (r, backups'), w') →
  drop (Z.to_nat keepLast) backups' = done ++ x :: rest →
  (∀ y w, y ∈ done → (deleteFunc (Name y) w).1 = Ok tt) →
  (∀ w, (deleteFunc (Name x) w).1 = Err err) →
  r = Err (wrapError ("failed to delete " +:+ Name x +:+ ": %w") err)
  ∧ w' = (deleteFunc (Name x) (foldl (λ w b, (deleteFunc (Name b) w).2) w done)).2.
Proof.
  intros Hk. rewrite ApplyRetentionPolicy_run.
  case_decide as Hlen.
  - intros [= <- <- <-] Hd. rewrite drop_ge in Hd by lia. by destruct done.
  - cbn zeta. rewrite decide_False by lia.
    intros [= <- <- <-] Hd Hok Herr. rewrite Hd.
    by rewrite (delete_each_first_Err _ _ _ _ err).
Qed.

(** X20. A negative [keepLast] makes [ApplyRetentionPolicy] panic, for any
    slice, also the empty one: the delete loop starts at index [keepLast].
    By then the slice has been sorted and nothing has been deleted. *)
Theorem ApplyRetentionPolicy_negative_keepLast backups keepLast deleteFunc w :
  (keepLast < 0)%Z →
  ApplyRetentionPolicy backups keepLast deleteFunc w
  = (Panics (IndexOutOfRange keepLast (length backups)), w).
Proof.
  intros Hk. rewrite ApplyRetentionPolicy_run.
  rewrite decide_False by lia. cbn zeta. by rewrite decide_True by lia.
Qed.

(** *** GetBackupsByManager *)

Lemma String_length_app (s1 s2 : string) :
  String.length (s1 +:+ s2) = String.length s1 + String.length s2.
Proof.
  induction s1 as [|a s1 IH]; [done|].
  change (S (String.length (s1 +:+ s2)) = S (String.length s1 + String.length s2)).
  by rewrite IH.
Qed.

Lemma substring_length_le (n m : nat) (s : string) :
  String.length (substring n m s) ≤ m.
Proof.
  revert n m; induction s as [|a s IH]; intros [|n] [|m]; cbn; try lia.
  - specialize (IH 0 m). lia.
  - apply (IH n 0).
  - apply (IH n (S m)).
Qed.

(** X21. [GetBackupsByManager] never returns a backup.  Its test compares
    the first [len(manager)] bytes of a name with ["backup_" + manager],
    which is seven bytes longer, so no name passes: when [List] succeeds
    the result is the empty slice, for every manager and every listing;
    when [List] fails its error is handed on. *)
Theorem GetBackupsByManager_empty (List : M (list BackupFile)) manager w :
  GetBackupsByManager List manager w
  = match List w with
    | (Ok _, w') => (Ok [], w')
    | (Err e, w') => (Err e, w')
    end.
Proof.
  unfold GetBackupsByManager, mbind, M_bind, mret, M_ret.
  destruct (List w) as [[backups|e] w']; [|done].
  f_equal. f_equal.
  set (keep := λ (filtered : list BackupFile) (backup : BackupFile), _).
  assert (G : ∀ acc, foldl keep acc backups = acc); [|apply G].
  induction backups as [|b backups IH]; intros acc; cbn [foldl]; [done|].
  rewrite <- (IH acc) at 2. f_equal. subst keep. cbv beta.
  case_decide; [|done].
  rewrite decide_False; [done|].
  intros E. apply (f_equal String.length) in E.
  rewrite String_length_app in E. cbn in E.
  pose proof (substring_length_le 0 (String.length manager) (Name b)). lia.
Qed.


(** *** truncate *)

Lemma substring_length (n : nat) (s : string) :
  n ≤ String.length s → String.length (substring 0 n s) = n.
Proof.
  revert n; induction s as [|a s IH]; intros [|n] Hn; cbn in *; try lia.
  rewrite IH; lia.
Qed.

(** X22. [truncate(s, maxLen)] with [maxLen >= 3] returns a string of at
    most [maxLen] bytes: [s] itself when it fits, and otherwise the first
    [maxLen - 3] bytes of [s] followed by ["..."], [maxLen] bytes in all.
    With [maxLen < 3] and a longer [s], the slice [s[:maxLen-3]] panics. *)
Theorem truncate_bounds s maxLen :
  ((3 ≤ maxLen)%Z →
   ∃ r, cmd.truncate s maxLen = Returns r
     ∧ (Z.of_nat (String.length r) ≤ maxLen)%Z
     ∧ ((Z.of_nat (String.length s) ≤ maxLen)%Z → r = s)
     ∧ ((maxLen < Z.of_nat (String.length s))%Z →
        r = substring 0 (Z.to_nat (maxLen - 3)) s +:+ "..."
        ∧ Z.of_nat (String.length r) = maxLen))
  ∧ ((maxLen < 3)%Z → (maxLen < Z.of_nat (String.length s))%Z →
     cmd.truncate s maxLen
     = Panics (SliceBoundsOutOfRange (maxLen - 3) (String.length s))).
Proof.
  unfold cmd.truncate, slice_to. split.
  - intros H3. case_decide as Hl.
    + exists s. split_and!; [done|lia|done|lia].
    + rewrite decide_True by lia. eexists. split; [done|].
      assert (String.length (substring 0 (Z.to_nat (maxLen - 3)) s +:+ "...")
              = Z.to_nat maxLen) as Hr.
      { rewrite String_length_app, substring_length by lia. cbn. lia. }
      split_and!; [lia|lia|]. intros _. split; [done|lia].
  - intros H3 Hl. rewrite decide_False by lia. by rewrite decide_False by lia.
Qed.

(** *** FormatBytes *)

Section FormatBytes.

Variable Sprintf_d_B : Z → string.
Variable Sprintf_f_cB : Z → Z → ascii → string.

Lemma int64_small z : (- 2 ^ 63 ≤ z < 2 ^ 63)%Z → utils.int64 z = z.
Proof.
  intros Hz. unfold utils.int64.
  rewrite Z.mod_small; lia.
Qed.

Lemma pow_1024_int64 (e : nat) : (1024 ^ (Z.of_nat e + 1) < 2 ^ 63)%Z → e ≤ 5.
Proof.
  intros He. destruct (decide (e ≤ 5)) as [|Hgt]; [done|exfalso].
  assert (1024 ^ 7 ≤ 1024 ^ (Z.of_nat e + 1))%Z by (apply Z.pow_le_mono_r; lia).
  change (1024 ^ 7)%Z with 1180591620717411303424%Z in *.
  change (2 ^ 63)%Z with 9223372036854775808%Z in *. lia.
Qed.

(** The loop keeps [div = 1024^(exp+1)] and [n = bytes / div], and ends
    with [div <= bytes < 1024 * div]. *)
Lemma FormatBytes_loop_spec (bytes : Z) (m : nat) :
  (bytes < 2 ^ 63)%Z →
  ∀ n div (e : nat),
    Z.to_nat n ≤ m → (1 ≤ n)%Z → div = (1024 ^ (Z.of_nat e + 1))%Z →
    n = (bytes / div)%Z →
    ∃ e' : nat,
      utils.FormatBytes_loop n div (Z.of_nat e)
      = ((1024 ^ (Z.of_nat e' + 1))%Z, Z.of_nat e')
      ∧ (1024 ^ (Z.of_nat e' + 1) ≤ bytes < 1024 ^ (Z.of_nat e' + 2))%Z.
Proof.
  intros Hb. induction m as [|m IH]; intros n div e Hm Hn Hdiv Hq; [lia|].
  assert (0 < div)%Z as Hpos by (subst div; apply Z.pow_pos_nonneg; lia).
  assert (div * n ≤ bytes < div * (n + 1))%Z as Hbn.
  { subst n. split.
    - apply Z.mul_div_le. lia.
    - rewrite Z.mul_add_distr_l, Z.mul_1_r.
      pose proof (Z.mod_pos_bound bytes div Hpos).
      pose proof (Z.div_mod bytes div ltac:(lia)). lia. }
  rewrite utils.FormatBytes_loop_equation_1. unfold utils.unit.
  destruct (decide (1024 ≤ n)%Z) as [Hge|Hlt]; cbn.
  - assert (div * 1024 ≤ bytes)%Z as Hd
      by (apply Z.le_trans with (div * n)%Z; [apply Z.mul_le_mono_nonneg_l; lia|lia]).
    assert (e ≤ 5) as He by (apply pow_1024_int64; lia).
    unfold utils.unit. rewrite !int64_small by lia.
    replace (Z.of_nat e + 1)%Z with (Z.of_nat (S e)) by lia.
    apply IH.
    + assert (n ÷ 1024 < n)%Z by (apply Z.quot_lt; lia).
      assert (0 ≤ n ÷ 1024)%Z by (apply Z.quot_pos; lia). lia.
    + rewrite Z.quot_div_nonneg by lia.
      apply Z.div_le_lower_bound; lia.
    + subst div. replace (Z.of_nat (S e) + 1)%Z with (Z.succ (Z.of_nat e + 1)) by lia.
      rewrite Z.pow_succ_r by lia. lia.
    + rewrite Z.quot_div_nonneg by lia. subst n.
      by rewrite Z.div_div by lia.
  - exists e. subst div. split; [done|].
    replace (Z.of_nat e + 2)%Z with (Z.succ (Z.of_nat e + 1)) by lia.
    rewrite Z.pow_succ_r by lia.
    revert Hbn Hpos. generalize (1024 ^ (Z.of_nat e + 1))%Z as d. intros d Hbn Hpos.
    assert (d * 1 ≤ d * n)%Z by (apply Z.mul_le_mono_nonneg_l; lia).
    assert (d * (n + 1) ≤ d * 1024)%Z by (apply Z.mul_le_mono_nonneg_l; lia).
    lia.
Qed.

(** X23. [FormatBytes] on a size of at least 1024 bytes, any [int64]: the
    loop ends with [div = 1024^(e+1)] for the [e] with
    [1024^(e+1) <= bytes < 1024^(e+2)], [div] never overflows, [e] is at
    most 5, so ["KMGTPE"[exp]] is in range, and the call returns the
    quotient rendered with the [e]-th of the letters K, M, G, T, P, E. *)
Theorem FormatBytes_unit bytes :
  (1024 ≤ bytes < 2 ^ 63)%Z →
  ∃ (e : nat) c,
    e ≤ 5
    ∧ String.get e "KMGTPE" = Some c
    ∧ (1024 ^ (Z.of_nat e + 1) ≤ bytes < 1024 ^ (Z.of_nat e + 2))%Z
    ∧ utils.FormatBytes Sprintf_d_B Sprintf_f_cB bytes
      = Returns (Sprintf_f_cB bytes (1024 ^ (Z.of_nat e + 1)) c).
Proof.
  intros Hb. unfold utils.FormatBytes, utils.unit.
  rewrite decide_False by lia.
  assert (1 ≤ bytes ÷ 1024)%Z as Hn.
  { rewrite Z.quot_div_nonneg by lia. apply Z.div_le_lower_bound; lia. }
  destruct (FormatBytes_loop_spec bytes (Z.to_nat (bytes ÷ 1024)) ltac:(lia)
              (bytes ÷ 1024)%Z 1024%Z 0 ltac:(lia) Hn eq_refl)
    as (e & Hloop & He).
  { rewrite Z.quot_div_nonneg by lia. done. }
  change (Z.of_nat 0) with 0%Z in Hloop. rewrite Hloop.
  assert (e ≤ 5) as H5 by (apply pow_1024_int64; lia).
  rewrite decide_True by lia. rewrite Nat2Z.id.
  assert (is_Some (String.get e "KMGTPE")) as [c Hc].
  { do 6 (destruct e as [|e]; [by eexists|]). lia. }
  rewrite Hc. exists e, c. done.
Qed.

End FormatBytes.


(** ** Backup and restore *)

Section BackupRestore.

Variable sha256_Sum : list byte → list byte.
Variable aesgcm_Seal : list byte → list byte → list byte → list byte.
Variable aesgcm_Open : list byte → list byte → list byte → option (list byte).
Variable gzip_Write_Close : list byte → list byte.
Variable gzip_NewReader : list byte → option error.
Variable gzip_ReadAll : list byte → result (list byte).

Hypothesis sha256_Sum_length : ∀ m, length (sha256_Sum m) = 32.
Hypothesis aesgcm_Open_Seal : ∀ key nonce plaintext,
  length key = 32 → length nonce = 12 →
  aesgcm_Open key nonce (aesgcm_Seal key nonce plaintext) = Some plaintext.
Hypothesis aesgcm_Seal_length : ∀ key nonce plaintext,
  length key = 32 → length nonce = 12 →
  length (aesgcm_Seal key nonce plaintext) = length plaintext + 16.

(** What gzip writes, gzip reads back. *)
Hypothesis gzip_roundtrip : ∀ data,
  gzip_NewReader (gzip_Write_Close data) = None
  ∧ gzip_ReadAll (gzip_Write_Close data) = Ok data.

Local Abbreviation processedData :=
  (cmd.backupManager_processedData sha256_Sum aesgcm_Seal gzip_Write_Close).
Local Abbreviation finalData :=
  (cmd.runRestore_finalData sha256_Sum aesgcm_Open gzip_NewReader gzip_ReadAll).

(** X24. Backup, then restore, under one configuration.  With encryption
    on and 44 bytes of entropy, the bytes [backupManager] uploads, given
    back to [runRestore] with the same password, come out as the exported
    vault data, with compression on or off. *)
Theorem backup_restore_roundtrip Compression exportedData password w :
  44 ≤ length (rand w) →
  ∃ backupData w1 w2,
    processedData Compression true exportedData password w = (Ok backupData, w1)
    ∧ finalData Compression backupData password w1 = (Ok exportedData, w2).
Proof using sha256_Sum_length aesgcm_Open_Seal aesgcm_Seal_length gzip_roundtrip.
  intros Hr.
  unfold cmd.backupManager_processedData, cmd.runRestore_finalData,
    utils.CompressData, utils.DecompressData, or_else.
  set (data := if Compression then gzip_Write_Close exportedData else exportedData).
  assert (E : Encrypt sha256_Sum aesgcm_Seal data password w
              = (Ok (container (take 32 (rand w)) (take 12 (drop 32 (rand w)))
                       (aesgcm_Seal (GenerateKey sha256_Sum password (take 32 (rand w)))
                          (take 12 (drop 32 (rand w))) data)),
                 World (drop 44 (rand w)) (files w) (readonly w)
                   (mem w ++ [replicate 32 x00])))
    by (by apply Encrypt_Ok_run).
  assert (length (take 32 (rand w)) = 32) as Hs by (rewrite length_take; lia).
  assert (length (take 12 (drop 32 (rand w))) = 12) as Hn
    by (rewrite length_take, length_drop; lia).
  pose proof (GenerateKey_length sha256_Sum sha256_Sum_length password
                (take 32 (rand w))) as Hk.
  exists (container (take 32 (rand w)) (take 12 (drop 32 (rand w)))
            (aesgcm_Seal (GenerateKey sha256_Sum password (take 32 (rand w)))
               (take 12 (drop 32 (rand w))) data)),
    (World (drop 44 (rand w)) (files w) (readonly w) (mem w ++ [replicate 32 x00])),
    (after_Decrypt
       (World (drop 44 (rand w)) (files w) (readonly w) (mem w ++ [replicate 32 x00]))).
  split.
  - run_monad. destruct Compression; subst data; cbv beta iota; rewrite E; reflexivity.
  - run_monad.
    rewrite (Decrypt_container sha256_Sum aesgcm_Open sha256_Sum_length)
      by first [exact Hs | exact Hn
               | rewrite (aesgcm_Seal_length _ _ data Hk Hn); lia].
    rewrite (aesgcm_Open_Seal _ _ data Hk Hn).
    destruct Compression; subst data; cbv beta iota; [|reflexivity].
    destruct (gzip_roundtrip exportedData) as [-> ->]. reflexivity.
Qed.

(** X25. A backup made without encryption cannot be restored.
    [backupManager] then uploads the vault data as exported, or gzipped;
    [runRestore] opens every backup with [crypto.Decrypt], whatever the
    configuration says, so unless those bytes happen to start with the
    magic ["PWBK"] it stops with a format error and writes nothing. *)
Theorem plain_backup_not_restorable Compression Compression' exportedData password
    password' w w' backupData :
  processedData Compression false exportedData password w = (Ok backupData, w') →
  take 4 backupData ≠ bytes_of_string "PWBK" →
  w' = w
  ∧ backupData = (if Compression then gzip_Write_Close exportedData else exportedData)
  ∧ ∃ e, finalData Compression' backupData password' w' = (Err e, w')
      ∧ (e = ErrTruncated ∨ e = ErrBadMagic).
Proof using sha256_Sum_length.
  unfold cmd.backupManager_processedData, cmd.runRestore_finalData,
    utils.CompressData.
  run_monad. intros E Hm.
  assert (w' = w ∧ backupData
          = if Compression then gzip_Write_Close exportedData else exportedData)
    as [-> ->] by (destruct Compression; by injection E as <- <-).
  split_and!; [done..|].
  rewrite (Decrypt_run sha256_Sum aesgcm_Open sha256_Sum_length).
  case_decide; [eauto|]. rewrite decide_True by done. eauto.
Qed.

(** X26. Backup and restore under configurations that differ in
    [compression], encryption on.  Made without compression and restored
    with it: when [DecompressData] rejects the vault data, [runRestore]
    falls back to the decrypted bytes and the data comes out right.  Made
    with compression and restored without: [runRestore] writes the gzip
    stream, not the vault data. *)
Theorem backup_restore_compression_mismatch exportedData password w :
  44 ≤ length (rand w) →
  (∃ backupData w1 w2,
     processedData false true exportedData password w = (Ok backupData, w1)
     ∧ (gzip_NewReader exportedData ≠ None ∨ (∃ e, gzip_ReadAll exportedData = Err e) →
        finalData true backupData password w1 = (Ok exportedData, w2)))
  ∧ (∃ backupData w1 w2,
       processedData true true exportedData password w = (Ok backupData, w1)
       ∧ finalData false backupData password w1
         = (Ok (gzip_Write_Close exportedData), w2)).
Proof using sha256_Sum_length aesgcm_Open_Seal aesgcm_Seal_length.
  intros Hr.
  unfold cmd.backupManager_processedData, cmd.runRestore_finalData,
    utils.CompressData, utils.DecompressData, or_else.
  assert (E : ∀ data, Encrypt sha256_Sum aesgcm_Seal data password w
              = (Ok (container (take 32 (rand w)) (take 12 (drop 32 (rand w)))
                       (aesgcm_Seal (GenerateKey sha256_Sum password (take 32 (rand w)))
                          (take 12 (drop 32 (rand w))) data)),
                 World (drop 44 (rand w)) (files w) (readonly w)
                   (mem w ++ [replicate 32 x00])))
    by (intros data; by apply Encrypt_Ok_run).
  assert (length (take 32 (rand w)) = 32) as Hs by (rewrite length_take; lia).
  assert (length (take 12 (drop 32 (rand w))) = 12) as Hn
    by (rewrite length_take, length_drop; lia).
  pose proof (GenerateKey_length sha256_Sum sha256_Sum_length password
                (take 32 (rand w))) as Hk.
  assert (D : ∀ data w1,
    Decrypt sha256_Sum aesgcm_Open
      (container (take 32 (rand w)) (take 12 (drop 32 (rand w)))
         (aesgcm_Seal (GenerateKey sha256_Sum password (take 32 (rand w)))
            (take 12 (drop 32 (rand w))) data)) password w1
    = (Ok data, after_Decrypt w1)).
  { intros data w1.
    rewrite (Decrypt_container sha256_Sum aesgcm_Open sha256_Sum_length)
      by first [exact Hs | exact Hn
               | rewrite (aesgcm_Seal_length _ _ data Hk Hn); lia].
    by rewrite (aesgcm_Open_Seal _ _ data Hk Hn). }
  split; eexists _, _, _; (split; [run_monad; rewrite E; reflexivity|]).
  - intros Hrej. run_monad. rewrite D.
    destruct (gzip_NewReader exportedData) as [e|]; [reflexivity|].
    destruct Hrej as [Hne|[e He]]; [exfalso; exact (Hne eq_refl)|]. rewrite He. reflexivity.
  - run_monad. rewrite D. reflexivity.
Qed.

End BackupRestore.

(** ** These theorems on inputs *)

(** For a [keepLast] of 2, the four sample backups. *)
Lemma ApplyRetentionPolicy_sorts_sample :
  ∃ r backups',
    (ApplyRetentionPolicy Sample.backups 2 Sample.remove Sample.w_backups).1
    = Returns (r, backups')
    ∧ backups' ≡ₚ Sample.backups
    ∧ ((2 < Z.of_nat (length Sample.backups))%Z → newest_first backups')
    ∧ ((Z.of_nat (length Sample.backups) ≤ 2)%Z →
       ApplyRetentionPolicy Sample.backups 2 Sample.remove Sample.w_backups
       = (Returns (Ok tt, Sample.backups), Sample.w_backups)).
Proof.
  exact (ApplyRetentionPolicy_sorts Sample.backups 2 Sample.remove Sample.w_backups
           ltac:(lia)).
Defined.

(** Keep two of the four sample backups, every removal succeeding. *)
Lemma ApplyRetentionPolicy_deletes_oldest_sample :
  ∃ kept deleted,
    ApplyRetentionPolicy Sample.backups 2 Sample.remove_force Sample.w_backups
    = (Returns (Ok tt, kept ++ deleted),
       foldl (λ w b, (Sample.remove_force (Name b) w).2) Sample.w_backups deleted)
    ∧ kept ++ deleted ≡ₚ Sample.backups
    ∧ length kept = Z.to_nat 2
    ∧ ∀ x y, x ∈ kept → y ∈ deleted → (ModifiedTime y ≤ ModifiedTime x)%Z.
Proof.
  assert (H1 : (0 ≤ 2 < Z.of_nat (length Sample.backups))%Z) by (vm_compute; split; congruence).
  assert (H2 : ∀ name w, (Sample.remove_force name w).1 = Ok tt) by reflexivity.
  exact (ApplyRetentionPolicy_deletes_oldest Sample.backups 2 Sample.remove_force
           Sample.w_backups H1 H2).
Defined.

(** Keep one of the four; the removal of Tuesday's backup is refused, after
    Wednesday's has gone and before Monday's is tried. *)
Lemma ApplyRetentionPolicy_stops_at_first_failure_sample :
  ∃ r w',
    ApplyRetentionPolicy Sample.backups 1 (Sample.remove_except (Name Sample.b_tue))
      Sample.w_backups
    = (Returns (r, [Sample.b_thu; Sample.b_wed; Sample.b_tue; Sample.b_mon]), w')
    ∧ r = Err (wrapError ("failed to delete " +:+ Name Sample.b_tue +:+ ": %w")
                 (PathError "remove" (Name Sample.b_tue) EACCES))
    ∧ files w' !! Name Sample.b_wed = None
    ∧ files w' !! Name Sample.b_mon = Some (File Standin.sealed_hello perm0600).
Proof.
  eexists _, _. split; [vm_compute; reflexivity|].
  assert (H : ApplyRetentionPolicy Sample.backups 1
                (Sample.remove_except (Name Sample.b_tue)) Sample.w_backups
              = (Returns (Err (wrapError
                                 ("failed to delete " +:+ Name Sample.b_tue +:+ ": %w")
                                 (PathError "remove" (Name Sample.b_tue) EACCES)),
                          [Sample.b_thu; Sample.b_wed; Sample.b_tue; Sample.b_mon]),
                 World [] (delete (Name Sample.b_wed) (files Sample.w_backups)) false []))
    by (vm_compute; reflexivity).
  destruct (ApplyRetentionPolicy_stops_at_first_failure Sample.backups 1
              (Sample.remove_except (Name Sample.b_tue)) Sample.w_backups _ _ _
              [Sample.b_wed] Sample.b_tue [Sample.b_mon]
              (PathError "remove" (Name Sample.b_tue) EACCES)
              ltac:(lia) H eq_refl) as [Hr Hw].
  - intros y w Hy. apply list_elem_of_singleton in Hy as ->. reflexivity.
  - intros w. reflexivity.
  - split; [exact Hr|]. split; vm_compute; reflexivity.
Defined.

(** A [keepLast] of [-1]. *)
Lemma ApplyRetentionPolicy_negative_keepLast_sample :
  ApplyRetentionPolicy Sample.backups (-1) Sample.remove Sample.w_backups
  = (Panics (IndexOutOfRange (-1) (length Sample.backups)), Sample.w_backups).
Proof.
  exact (ApplyRetentionPolicy_negative_keepLast Sample.backups (-1) Sample.remove
           Sample.w_backups ltac:(lia)).
Defined.

(** Five mebibytes. *)
Lemma FormatBytes_unit_5MB :
  ∃ (e : nat) c,
    e ≤ 5
    ∧ String.get e "KMGTPE" = Some c
    ∧ (1024 ^ (Z.of_nat e + 1) ≤ 5242880 < 1024 ^ (Z.of_nat e + 2))%Z
    ∧ utils.FormatBytes Sample.Sprintf_d_B Sample.Sprintf_f_cB 5242880
      = Returns (Sample.Sprintf_f_cB 5242880 (1024 ^ (Z.of_nat e + 1)) c).
Proof.
  exact (FormatBytes_unit Sample.Sprintf_d_B Sample.Sprintf_f_cB 5242880 ltac:(lia)).
Defined.

(** The framing reads back what it wrote. *)
Lemma gzip_roundtrip_sample data :
  Sample.gzip_NewReader (Sample.gzip_Write_Close data) = None
  ∧ Sample.gzip_ReadAll (Sample.gzip_Write_Close data) = Ok data.
Proof. done. Qed.

(** The scenario's plaintext, backed up and restored with compression on. *)
Lemma backup_restore_roundtrip_hello :
  ∃ backupData w1 w2,
    cmd.backupManager_processedData Standin.sum Standin.seal Sample.gzip_Write_Close
      true true Standin.hello "correct-horse" Standin.w0 = (Ok backupData, w1)
    ∧ cmd.runRestore_finalData Standin.sum Standin.open Sample.gzip_NewReader
        Sample.gzip_ReadAll true backupData "correct-horse" w1
      = (Ok Standin.hello, w2).
Proof.
  assert (H : 44 ≤ length (rand Standin.w0)) by (vm_compute; lia).
  exact (backup_restore_roundtrip Standin.sum Standin.seal Standin.open
           Sample.gzip_Write_Close Sample.gzip_NewReader Sample.gzip_ReadAll
           StandinFacts.sum_length StandinFacts.open_seal StandinFacts.seal_length
           gzip_roundtrip_sample true Standin.hello "correct-horse" Standin.w0 H).
Defined.

(** The scenario's plaintext, backed up with compression and without encryption. *)
Lemma plain_backup_not_restorable_hello :
  Standin.w0 = Standin.w0
  ∧ Sample.gzip_Write_Close Standin.hello
    = (if true then Sample.gzip_Write_Close Standin.hello else Standin.hello)
  ∧ ∃ e, cmd.runRestore_finalData Standin.sum Standin.open Sample.gzip_NewReader
           Sample.gzip_ReadAll true (Sample.gzip_Write_Close Standin.hello)
           "correct-horse" Standin.w0 = (Err e, Standin.w0)
      ∧ (e = ErrTruncated ∨ e = ErrBadMagic).
Proof.
  assert (H1 : cmd.backupManager_processedData Standin.sum Standin.seal
                 Sample.gzip_Write_Close true false Standin.hello "correct-horse"
                 Standin.w0
               = (Ok (Sample.gzip_Write_Close Standin.hello), Standin.w0))
    by reflexivity.
  assert (H2 : take 4 (Sample.gzip_Write_Close Standin.hello) ≠ bytes_of_string "PWBK")
    by (vm_compute; discriminate).
  exact (plain_backup_not_restorable Standin.sum Standin.seal Standin.open
           Sample.gzip_Write_Close Sample.gzip_NewReader Sample.gzip_ReadAll
           StandinFacts.sum_length true true Standin.hello "correct-horse"
           "correct-horse" Standin.w0 Standin.w0 _ H1 H2).
Defined.

(** The scenario's plaintext under configurations that differ in compression. *)
Lemma backup_restore_compression_mismatch_hello :
  (∃ backupData w1 w2,
     cmd.backupManager_processedData Standin.sum Standin.seal Sample.gzip_Write_Close
       false true Standin.hello "correct-horse" Standin.w0 = (Ok backupData, w1)
     ∧ (Sample.gzip_NewReader Standin.hello ≠ None
        ∨ (∃ e, Sample.gzip_ReadAll Standin.hello = Err e) →
        cmd.runRestore_finalData Standin.sum Standin.open Sample.gzip_NewReader
          Sample.gzip_ReadAll true backupData "correct-horse" w1
        = (Ok Standin.hello, w2)))
  ∧ (∃ backupData w1 w2,
       cmd.backupManager_processedData Standin.sum Standin.seal Sample.gzip_Write_Close
         true true Standin.hello "correct-horse" Standin.w0 = (Ok backupData, w1)
       ∧ cmd.runRestore_finalData Standin.sum Standin.open Sample.gzip_NewReader
           Sample.gzip_ReadAll false backupData "correct-horse" w1
         = (Ok (Sample.gzip_Write_Close Standin.hello), w2)).
Proof.
  assert (H : 44 ≤ length (rand Standin.w0)) by (vm_compute; lia).
  exact (backup_restore_compression_mismatch Standin.sum Standin.seal Standin.open
           Sample.gzip_Write_Close Sample.gzip_NewReader Sample.gzip_ReadAll
           StandinFacts.sum_length StandinFacts.open_seal StandinFacts.seal_length
           Standin.hello "correct-horse" Standin.w0 H).
Defined.

(** ** The preview of a backup *)

(** On sixty bytes or more with the magic in front, the preview shows a
    header: the version and the name of the algorithm it reads at offsets
    4 to 7. *)
Lemma handlePreviewMode_header_run (backupData : list byte) :
  60 ≤ length backupData →
  take 4 backupData = bytes_of_string "PWBK" →
  cmd.handlePreviewMode_header backupData
  = Returns (cmd.ValidHeader (bytes_of_string "PWBK")
               (BigEndian_Uint16 (take 2 (drop 4 backupData)))
               (if decide (BigEndian_Uint16 (take 2 (drop 6 backupData)) = 1%N)
                then "AES-256-GCM" else "Unknown")).
Proof.
  intros Hl Hm. unfold cmd.handlePreviewMode_header, slice.
  rewrite decide_False by lia. rewrite drop_0, Nat.sub_0_r, Hm.
  rewrite decide_False by (intros H; by apply H).
  do 8 (destruct backupData as [|? backupData]; [cbn in Hl; lia|]).
  unfold at_index. rewrite !decide_True by lia.
  change (Z.to_nat 4) with 4. change (Z.to_nat 5) with 5.
  change (Z.to_nat 6) with 6. change (Z.to_nat 7) with 7.
  cbn [lookup list_lookup drop take BigEndian_Uint16].
  by rewrite !(N.lor_comm (N.shiftl _ 8)).
Qed.

Section Preview.

Variable sha256_Sum : list byte → list byte.
Variable aesgcm_Seal : list byte → list byte → list byte → list byte.
Variable aesgcm_Open : list byte → list byte → list byte → option (list byte).
Hypothesis sha256_Sum_length : ∀ m, length (sha256_Sum m) = 32.

(** X27. The preview of a container that [Encrypt] returned shows a valid
    header: the magic [PWBK], version 1, algorithm ["AES-256-GCM"]. *)
Theorem handlePreviewMode_of_Encrypt plaintext password w c w' :
  Encrypt sha256_Sum aesgcm_Seal plaintext password w = (Ok c, w') →
  cmd.handlePreviewMode_header c
  = Returns (cmd.ValidHeader (bytes_of_string "PWBK") 1 "AES-256-GCM").
Proof using sha256_Sum_length.
  intros E.
  destruct (Encrypt_Ok_inv sha256_Sum aesgcm_Seal sha256_Sum_length _ _ _ _ _ E)
    as (salt & nonce & Hs & Hn & ->).
  rewrite handlePreviewMode_header_run.
  - reflexivity.
  - rewrite container_length by done. lia.
  - reflexivity.
Qed.

(** X28. The preview and [Decrypt] read the same header, and the preview
    asks for less.  The preview never panics.  A buffer that [Decrypt]
    opens, or rejects only for its authentication tag, is shown as a
    valid header of version 1 and ["AES-256-GCM"].  But sixty bytes with
    the magic in front are enough for ["Valid stashr encrypted backup"]:
    the preview shows as valid the buffers of 60 to 75 bytes that
    [Decrypt] rejects as too short, and those with another version or
    algorithm. *)
Theorem handlePreviewMode_and_Decrypt backupData password w :
  (∃ p, cmd.handlePreviewMode_header backupData = Returns p)
  ∧ ((∀ e, (Decrypt sha256_Sum aesgcm_Open backupData password w).1 = Err e →
           e = ErrDecryptionFailed) →
     cmd.handlePreviewMode_header backupData
     = Returns (cmd.ValidHeader (bytes_of_string "PWBK") 1 "AES-256-GCM"))
  ∧ (60 ≤ length backupData → take 4 backupData = bytes_of_string "PWBK" →
     (∃ version algorithmName,
        cmd.handlePreviewMode_header backupData
        = Returns (cmd.ValidHeader (bytes_of_string "PWBK") version algorithmName))
     ∧ (length backupData < 76 →
        (Decrypt sha256_Sum aesgcm_Open backupData password w).1 = Err ErrTruncated)).
Proof using sha256_Sum_length.
  split_and!.
  - unfold cmd.handlePreviewMode_header.
    destruct (decide (length backupData < 60)) as [|Hl]; [eauto|].
    case_decide; [eauto|].
    do 8 (destruct backupData as [|? backupData]; [cbn in Hl; lia|]).
    unfold at_index. rewrite !decide_True by lia.
    change (Z.to_nat 4) with 4. change (Z.to_nat 5) with 5.
    change (Z.to_nat 6) with 6. change (Z.to_nat 7) with 7.
    cbn [lookup list_lookup]. eauto.
  - rewrite (Decrypt_run sha256_Sum aesgcm_Open sha256_Sum_length). intros H.
    destruct (decide (length backupData < 76)) as [|Hl];
      [by specialize (H _ eq_refl)|].
    destruct (decide (take 4 backupData ≠ bytes_of_string "PWBK")) as [|Hm];
      [by specialize (H _ eq_refl)|].
    destruct (decide (BigEndian_Uint16 (take 2 (drop 4 backupData)) ≠ 1%N)) as [|Hv];
      [by specialize (H _ eq_refl)|].
    destruct (decide (BigEndian_Uint16 (take 2 (drop 6 backupData)) ≠ 1%N)) as [|Ha];
      [by specialize (H _ eq_refl)|].
    apply dec_stable in Hm, Hv, Ha.
    rewrite handlePreviewMode_header_run by (done || lia).
    by rewrite Hv, Ha.
  - intros Hl Hm. split.
    + rewrite handlePreviewMode_header_run by done. eauto.
    + intros Hs. rewrite (Decrypt_run sha256_Sum aesgcm_Open sha256_Sum_length).
      by rewrite decide_True by lia.
Qed.

End Preview.

(** The preview of the scenario's container. *)
Lemma handlePreviewMode_of_Encrypt_hello :
  cmd.handlePreviewMode_header Standin.sealed_hello
  = Returns (cmd.ValidHeader (bytes_of_string "PWBK") 1 "AES-256-GCM").
Proof.
  exact (handlePreviewMode_of_Encrypt Standin.sum Standin.seal StandinFacts.sum_length
           Standin.hello "correct-horse" Standin.w0 Standin.sealed_hello Standin.w1
           StandinFacts.Encrypt_hello).
Defined.

(** The first sixty bytes of the scenario's container: previewed as valid,
    too short for [Decrypt]. *)
Lemma handlePreviewMode_and_Decrypt_sixty :
  (∃ version algorithmName,
     cmd.handlePreviewMode_header (take 60 Standin.sealed_hello)
     = Returns (cmd.ValidHeader (bytes_of_string "PWBK") version algorithmName))
  ∧ (length (take 60 Standin.sealed_hello) < 76 →
     (Decrypt Standin.sum Standin.open (take 60 Standin.sealed_hello) "correct-horse"
        Standin.w0).1 = Err ErrTruncated).
Proof.
  assert (H1 : 60 ≤ length (take 60 Standin.sealed_hello)) by (vm_compute; lia).
  assert (H2 : take 4 (take 60 Standin.sealed_hello) = bytes_of_string "PWBK")
    by reflexivity.
  destruct (handlePreviewMode_and_Decrypt Standin.sum Standin.open
              StandinFacts.sum_length (take 60 Standin.sealed_hello) "correct-horse"
              Standin.w0) as (_ & _ & H).
  exact (H H1 H2).
Defined.
